(** * glass: Voronoi cell adjacency and greedy colouring (glass.go)

    A shallow embedding of the adjacency recorder ([link], [add],
    [drawNear]), of the elimination ordering ([enStack]) and of the greedy
    colourer ([colorPoints]) of glass.go, with the properties checked on it.

    - float64 is Rocq's primitive binary64 [float];
    - Go maps are stdpp [gmap]s; the order in which a [range] statement
      visits the keys of a map is not fixed by the language, so it is an
      explicit input of the model (a [schedule]);
    - the k-d tree is an external package: its [KNN] query is a parameter;
    - sites are shared through pointers; the model keeps them in one store
      ([list point]) and names them by their position in it. *)

From Stdlib Require Import Floats ZArith List Lia.
From stdpp Require Import base decidable countable gmap list option.

Local Open Scope float_scope.

(** ** float64 as a key type *)

(** Structural equality of floats, decided by the kernel's bit comparison.
    It agrees with Go's [==] on every finite value except that it tells
    [+0] from [-0]; site coordinates are products of a number of [0,1) with
    a positive bound, so neither [-0] nor a NaN is ever a key. *)
Global Instance float_eq_dec : EqDecision float.
Proof.
  refine (fun x y =>
    match PrimFloat.Leibniz.eqb x y as b
          return PrimFloat.Leibniz.eqb x y = b -> Decision (x = y) with
    | true => fun H => left _
    | false => fun H => right _
    end eq_refl).
  - now apply FloatAxioms.Leibniz.eqb_spec.
  - intros E. apply FloatAxioms.Leibniz.eqb_spec in E. congruence.
Defined.

Definition float_pack (f : float) : bool + bool + unit + bool * positive * Z :=
  match Prim2SF f with
  | S754_zero s => inl (inl (inl s))
  | S754_infinity s => inl (inl (inr s))
  | S754_nan => inl (inr tt)
  | S754_finite s m e => inr (s, m, e)
  end.

Definition float_unpack (p : bool + bool + unit + bool * positive * Z) : float :=
  SF2Prim match p with
          | inl (inl (inl s)) => S754_zero s
          | inl (inl (inr s)) => S754_infinity s
          | inl (inr _) => S754_nan
          | inr (s, m, e) => S754_finite s m e
          end.

Lemma float_unpack_pack f : float_unpack (float_pack f) = f.
Proof.
  unfold float_unpack, float_pack.
  rewrite <- (SF2Prim_Prim2SF f) at 2.
  now destruct (Prim2SF f).
Qed.

Global Instance float_countable : Countable float :=
  inj_countable' float_pack float_unpack float_unpack_pack.

(** ** Data *)

(** [type line struct { a, b, c float64 }] *)
Record line := Line { la : float; lb : float; lc : float }.

(** [color.RGBA{R, G, B, A uint8}] *)
Record RGBA := mkRGBA { cR : Z; cG : Z; cB : Z; cA : Z }.

Global Instance RGBA_eq_dec : EqDecision RGBA.
Proof. solve_decision. Defined.

(** [type point struct { vec []float64; color color.Color }] *)
Record point := Point { vec : list float; color : RGBA }.

Global Instance point_eq_dec : EqDecision point.
Proof. solve_decision. Defined.

(** [type xy struct{ x, y float64 }], the key of the adjacency map. *)
Record xy := XY { xx : float; xyy : float }.

Global Instance xy_eq_dec : EqDecision xy.
Proof. solve_decision. Defined.

Global Instance xy_countable : Countable xy.
Proof.
  apply (inj_countable' (fun k => (xx k, xyy k)) (fun p => XY p.1 p.2)).
  now intros [].
Defined.

(** [p.vec[d]]; every slice the program builds has two entries, and the
    model reads a missing entry as NaN where Go would stop. *)
Definition GetValue (p : point) (d : nat) : float := nth d (vec p) nan.

Definition Dim (p : point) : nat := length (vec p).

(** [func (p *point) xy() xy] *)
Definition point_xy (p : point) : xy := XY (GetValue p 0) (GetValue p 1).

(** [func (p xy) point() *point]: a fresh point, its colour the zero value
    of the interface; only its coordinates are ever read. *)
Definition xy_vec (k : xy) : list float := [xx k; xyy k].

(** [func (p *point) line(o *point) line] *)
Definition point_line (p o : point) : line :=
  Line (GetValue p 1 - GetValue o 1)
       (GetValue o 0 - GetValue p 0)
       (GetValue p 1 * GetValue o 0 - GetValue o 1 * GetValue p 0).

(** [func (l line) perp(p *point) line] *)
Definition perp (l : line) (pv : list float) : line :=
  Line (lb l) (- la l) (lb l * nth 0 pv nan - la l * nth 1 pv nan).

(** [func (p *point) biscector(o *point) line] *)
Definition biscector (p o : point) : line :=
  let mps := map (fun i => (GetValue p i + GetValue o i) / 2) (seq 0 (Dim p)) in
  perp (point_line p o) mps.

(** [func (p *point) Distance(o kdtree.Point) float64]: the squared
    Euclidean distance, summed from 0 in index order. *)
Definition Distance (pv ov : list float) : float :=
  fold_left (fun ret i => ret + (nth i pv nan - nth i ov nan) * (nth i pv nan - nth i ov nan))
            (seq 0 (length pv)) 0.

(** [maxX = 58 * 40], [maxY = 20 * 40] *)
Definition maxX : nat := 58 * 40.
Definition maxY : nat := 20 * 40.

(** [float64(x)] for a loop counter. *)
Definition float64_of_int (n : nat) : float := of_uint63 (Uint63.of_Z (Z.of_nat n)).

(** A float64 that is a number: no NaN, no infinity. *)
Definition finite64 (x : float) : bool :=
  match Prim2SF x with
  | S754_zero _ | S754_finite _ _ _ => true
  | _ => false
  end.

(** The palette, [var colors]. *)
Definition colors : list RGBA :=
  [ mkRGBA 155 17 30 255; mkRGBA 190 83 28 255; mkRGBA 241 196 0 255;
    mkRGBA 19 104 67 255; mkRGBA 135 206 235 255; mkRGBA 89 49 95 255 ].

(** The colour every site is created with in [main]. *)
Definition black : RGBA := mkRGBA 0 0 0 255.

Example biscector_ex :
  biscector (Point [0; 0] black) (Point [10; 0] black) = Line 10 (-0) 50.
Proof. reflexivity. Qed.

(** ** Loops that may stop *)

(** A [for] loop over [xs] threading a state, in which any iteration may
    stop the program (an index out of range); [None] is that stop. *)
Fixpoint for_each {A S : Type} (f : S -> A -> option S) (xs : list A) (s : S)
  : option S :=
  match xs with
  | [] => Some s
  | x :: xs' => s' ← f s x; for_each f xs' s'
  end.

(** ** The adjacency list *)

(** [type adjList struct { l map[xy]map[xy]bool }] *)
Abbreviation adjList := (gmap xy (gmap xy bool)).

(** The keys of a Go map, in the canonical order of the model. *)
Definition keys {V : Type} (m : gmap xy V) : list xy := (map_to_list m).*1.

(** [func (l *adjList) add(a, b *point)] *)
Definition add (l : adjList) (a b : point) : adjList :=
  let l1 := match l !! point_xy a with
            | None => <[point_xy a := ∅]> l
            | Some _ => l
            end in
  <[point_xy a := <[point_xy b := true]> (default ∅ (l1 !! point_xy a))]> l1.

(** [func (l *adjList) link(a, b kdtree.Point)] *)
Definition link (l : adjList) (a b : point) : adjList :=
  add (add l a b) b a.

(** [B] is recorded as a neighbour of [A]: [B] is a key of [l.l[A]]. *)
Definition neighbor (l : adjList) (A B : xy) : Prop :=
  ∃ v, l !! A = Some v ∧ is_Some (v !! B).

(** The neighbours of [k], [range l.l[k]]; a missing key reads as the nil
    map, which has none. *)
Definition neighbors (l : adjList) (k : xy) : list xy :=
  keys (default ∅ (l !! k)).

Definition symmetric (l : adjList) : Prop :=
  ∀ A B, neighbor l A B ↔ neighbor l B A.

Section Tree.

(** [tree.KNN(q, k)]: the sites nearest to [q], by their positions in the
    store; the package is not part of the repository. *)
Variable KNN : list float -> nat -> list nat.

(** The sites, [points] in [main]; the tree holds pointers to them. *)
Variable sites : list point.

(** The candidate points of a line: the body of the first and of the second
    loop of [drawNear] up to the query. *)
Definition sample_x (l : line) (x : nat) : list float :=
  [float64_of_int x; - (la l / lb l) * float64_of_int x + lc l / lb l].

Definition sample_y (l : line) (y : nat) : list float :=
  [- (lb l / la l) * float64_of_int y + lc l / la l; float64_of_int y].

(** The rest of either loop body: the two nearest sites of the candidate
    [n], and an edge between them when their squared distances to [n]
    differ by less than 1. *)
Definition record (al : adjList) (n : list float) : option adjList :=
  match KNN n 2 with
  | i0 :: i1 :: _ =>
      n0 ← sites !! i0;
      n1 ← sites !! i1;
      if abs (Distance n (vec n0) - Distance n (vec n1)) <? 1
      then Some (link al n0 n1)
      else Some al
  | _ => None
  end.

(** [func (l line) drawNear(img img, tree *kdtree.KDTree, c color.Color,
    al *adjList)], without the pixels it sets. *)
Definition drawNear (l : line) (al : adjList) : option adjList :=
  al1 ← for_each (fun al x => record al (sample_x l x)) (seq 0 maxX) al;
  for_each (fun al y => record al (sample_y l y)) (seq 0 maxY) al1.

(** Every candidate point of a line, in the order [drawNear] queries them. *)
Definition candidates (l : line) : list (list float) :=
  map (sample_x l) (seq 0 maxX) ++ map (sample_y l) (seq 0 maxY).

(** The pairs [(points[i], points[j])], [i < j], in the order of the two
    nested loops of [main]. *)
Fixpoint pairs (ps : list point) : list (point * point) :=
  match ps with
  | [] => []
  | p :: rest => map (pair p) rest ++ pairs rest
  end.

(** The adjacency loop of [main], from the empty adjacency list. *)
Definition buildAdjacency : option adjList :=
  for_each (fun al pq => drawNear (biscector pq.1 pq.2) al) (pairs sites) ∅.

(** Every candidate that [main] has queried, in order. *)
Definition all_candidates : list (list float) :=
  flat_map (fun pq => candidates (biscector pq.1 pq.2)) (pairs sites).

End Tree.

(** ** The elimination order *)

(** The order in which the [t]-th [range] statement of a run visits the
    keys [ks] of its map. Go leaves it open, and randomises it. *)
Definition schedule := nat -> list xy -> list xy.

(** A schedule of the language: every key is visited once. *)
Definition fair (sch : schedule) : Prop := ∀ t ks, sch t ks ≡ₚ ks.

(** [seen[n]], false for a missing key. *)
Definition get_seen (seen : gmap xy bool) (n : xy) : bool :=
  default false (seen !! n).

(** The inner loop of [enStack]: the number of keys of [v] not yet seen. *)
Definition deg (seen : gmap xy bool) (v : gmap xy bool) : nat :=
  length (filter (fun n => get_seen seen n = false) (keys v)).

(** The test of the first loop, [deg < 6 && !seen[k]]. *)
Definition low (l : adjList) (seen : gmap xy bool) (k : xy) : bool :=
  match l !! k with
  | Some v => bool_decide (deg seen v < 6)%nat && negb (get_seen seen k)
  | None => false
  end.

(** [func (l *adjList) enStack(seen map[xy]bool) []xy]. The call at depth
    [t] runs two [range] statements over [l.l], numbered [2t] and [2t+1].
    The recursion has no bound of its own: [None] is a run that needs more
    than [fuel] calls. *)
Fixpoint enStack (sch : schedule) (fuel t : nat) (l : adjList)
    (seen : gmap xy bool) : option (list xy) :=
  match fuel with
  | O => None
  | S fuel' =>
      let pick k :=
        let seen' := <[k := true]> seen in
        if decide (size seen' = size l) then Some [k]
        else rest ← enStack sch fuel' (S t) l seen'; Some (k :: rest) in
      match List.find (low l seen) (sch (2 * t)%nat (keys l)) with
      | Some k => pick k
      | None =>
          match sch (2 * t + 1)%nat (keys l) with
          | k :: _ => pick k
          | [] => Some []
          end
      end
  end.

(** ** The greedy colourer *)

(** What [colorPoints] changes: the colour fields of the sites, the
    process-wide palette [colors] (shuffled in place) and, as a ghost
    field, every assignment [p.color = c] it has executed, oldest first,
    as the site written and the colour. [shuffles] counts the calls of
    [rand.Shuffle]. *)
Record state := State {
  pts : list point;
  palette : list RGBA;
  shuffles : nat;
  writes : list (nat * RGBA)
}.

Global Instance state_eq_dec : EqDecision state.
Proof. solve_decision. Defined.

(** [p.color = c] on the site at position [i]. *)
Definition set_color (ps : list point) (i : nat) (c : RGBA) : list point :=
  match ps !! i with
  | Some p => <[i := Point (vec p) c]> ps
  | None => ps
  end.

Section Colorer.

Variable KNN : list float -> nat -> list nat.

(** The [j]-th call of [rand.Shuffle(len(colors), swap)] of a run, as the
    palette it leaves for the palette it finds; the seed fixes it. *)
Variable shuffle : nat -> list RGBA -> list RGBA.

(** [tree.KNN(k.point(), 1)[0]], a pointer to a site. *)
Definition nearest (k : xy) : option nat := head (KNN (xy_vec k) 1).

(** [tree.KNN(k.point(), 1)[0].color], read in the store [ps]. *)
Definition color_of (ps : list point) (k : xy) : option RGBA :=
  q ← nearest k; color <$> ps !! q.

(** The loop over [al.l[p.xy()]]: the colours of the sites nearest to the
    neighbours, whether [colorPoints] has coloured them or not. *)
Definition seen_colors (al : adjList) (ps : list point) (p : point)
  : option (list RGBA) :=
  mapM (color_of ps) (neighbors al (point_xy p)).

(** The last loop of the body: one assignment for every colour of the
    palette that is not in [seen]. *)
Definition assign (i : nat) (seen : list RGBA) (st : state) (c : RGBA) : state :=
  if decide (c ∈ seen) then st
  else State (set_color (pts st) i c) (palette st) (shuffles st)
             (writes st ++ [(i, c)]).

(** One iteration of the loop of [colorPoints], for [stack[i] = k]. *)
Definition colorSite (al : adjList) (st : state) (k : xy) : option state :=
  i ← nearest k;
  p ← pts st !! i;
  seen ← seen_colors al (pts st) p;
  let pal := shuffle (shuffles st) (palette st) in
  Some (fold_left (assign i seen) pal
          (State (pts st) pal (S (shuffles st)) (writes st))).

(** [func colorPoints(tree *kdtree.KDTree, points []kdtree.Point,
    al *adjList)] *)
Definition colorPoints (sch : schedule) (fuel : nat) (al : adjList)
    (st : state) : option state :=
  stack ← enStack sch fuel 0 al ∅;
  for_each (colorSite al) (rev stack) st.

(** The colour of the site that [colorPoints] finds for the key [k]. *)
Definition color_at (st : state) (k : xy) : option RGBA := color_of (pts st) k.

End Colorer.

(** The state in which [main] calls [colorPoints]. *)
Definition init (sites : list point) : state := State sites colors 0 [].

(** [main] creates every site black. *)
Definition site (x y : float) : point := Point [x; y] black.

(** The part of [main] between the creation of the sites and the drawing
    of the cells: the adjacency loop, then [colorPoints]. *)
Definition pipeline (KNN : list float -> nat -> list nat)
    (shuffle : nat -> list RGBA -> list RGBA) (sch : schedule) (fuel : nat)
    (sites : list point) : option (adjList * state) :=
  al ← buildAdjacency KNN sites;
  st ← colorPoints KNN shuffle sch fuel al (init sites);
  Some (al, st).

(** The colour that the writes [ws] leave at the site [j], if any of them
    went there. *)
Definition last_write (j : nat) (ws : list (nat * RGBA)) : option RGBA :=
  snd <$> list.last (filter (fun w => w.1 = j) ws).

(** ** Orders that the first loop of [enStack] produces *)

(** Whatever set [D] of keys is set aside, as long as a key of the
    adjacency list is left there is one left with fewer than 6 neighbours
    left: the graph has degeneracy at most 5, as every planar graph has. *)
Definition degenerate (l : adjList) : Prop :=
  ∀ D : gset xy,
    (∃ k, is_Some (l !! k) ∧ k ∉ D) ->
    ∃ k v, l !! k = Some v ∧ (k ∉ D) ∧
           (length (filter (.∉ D) (keys v)) < 6)%nat.

(** What [enStack] keeps true of [seen]: it marks keys of the adjacency
    list, and marks them [true]. *)
Definition marks (l : adjList) (seen : gmap xy bool) : Prop :=
  ∀ k b, seen !! k = Some b -> b = true ∧ is_Some (l !! k).

(** Every entry of [stack] occurs once and has fewer than 6 neighbours
    among the entries after it: what [deg < 6 && !seen[k]] checks when
    [enStack] takes [k], the later entries being the keys not seen then. *)
Fixpoint peeled (al : adjList) (stack : list xy) : Prop :=
  match stack with
  | [] => True
  | k :: post =>
      (length (filter (.∈ post) (neighbors al k)) < 6)%nat ∧
      (k ∉ post) ∧ peeled al post
  end.

Global Instance peeled_dec al stack : Decision (peeled al stack).
Proof. induction stack; simpl; apply _. Defined.

(** The tree finds, for every key of the adjacency list, a site at these
    very coordinates: the keys are coordinates of sites, and no other site
    is as near. *)
Definition located (KNN : list float -> nat -> list nat) (ps : list point)
    (al : adjList) : Prop :=
  ∀ k, is_Some (al !! k) ->
       ∃ i p, nearest KNN k = Some i ∧ ps !! i = Some p ∧ point_xy p = k.

(** The state [st] of the loop of [colorPoints], started in [st0], once the
    keys [post] have been visited: the sites are where they were, the
    palette holds the same colours, a site that no visited key led to is
    as it was, every visited key shows a colour of the palette, and no two
    distinct linked visited keys show the same. *)
Record coloured (KNN : list float -> nat -> list nat) (al : adjList)
    (st0 : state) (post : list xy) (st : state) : Prop := {
  col_dom : ∀ k, k ∈ post -> is_Some (al !! k);
  col_vec : vec <$> pts st = vec <$> pts st0;
  col_pal : palette st ≡ₚ palette st0;
  col_frame : ∀ i p, pts st !! i = Some p ->
      (∃ k, k ∈ post ∧ nearest KNN k = Some i) ∨ pts st0 !! i = Some p;
  col_palette : ∀ k, k ∈ post ->
      ∃ c, color_at KNN st k = Some c ∧ c ∈ palette st0;
  col_proper : ∀ A B, A ∈ post -> B ∈ post -> neighbor al A B -> A ≠ B ->
      color_at KNN st A ≠ color_at KNN st B
}.

Arguments col_dom {KNN al st0 post st}.
Arguments col_vec {KNN al st0 post st}.
Arguments col_pal {KNN al st0 post st}.
Arguments col_frame {KNN al st0 post st}.
Arguments col_palette {KNN al st0 post st}.
Arguments col_proper {KNN al st0 post st}.

(** The key that a call of [enStack] takes: the first one of the first loop
    that passes the test, else the first one of the second loop. *)
Definition chosen (sch : schedule) (t : nat) (l : adjList) (seen : gmap xy bool)
  : option xy :=
  match List.find (low l seen) (sch (2 * t)%nat (keys l)) with
  | Some k => Some k
  | None => head (sch (2 * t + 1)%nat (keys l))
  end.

(** ** Inputs of the examples *)

(** A tree that answers by exhaustive search: the positions of the sites
    by growing distance to [q], the first [k] of them. *)
Fixpoint insert_near (x : float * nat) (l : list (float * nat))
  : list (float * nat) :=
  match l with
  | [] => [x]
  | y :: l' => if x.1 <=? y.1 then x :: l else y :: insert_near x l'
  end.

Definition scanKNN (sites : list point) (q : list float) (k : nat) : list nat :=
  take k (snd <$> foldr insert_near []
                    (imap (fun i p => (Distance q (vec p), i)) sites)).

(** A tree without sites. *)
Definition noKNN (q : list float) (k : nat) : list nat := [].

(** [n] sites in a row, [(0,0)], [(1,0)], ... *)
Definition row (n : nat) : list point :=
  map (fun i => site (float64_of_int i) 0) (seq 0 n).

(** The adjacency list that links every two of the sites [ps]. *)
Definition clique (ps : list point) : adjList :=
  fold_left (fun al pq => link al pq.1 pq.2) (pairs ps) ∅.

(** Four sites at the corners of a square, and the adjacency list that
    links each of them to the two next to it. *)
Definition square : list point :=
  [site 0 0; site 10 0; site 0 10; site 10 10].

Definition ring : adjList :=
  link (link (link (link ∅ (site 0 0) (site 10 0)) (site 10 0) (site 10 10))
             (site 10 10) (site 0 10)) (site 0 10) (site 0 0).

(** Four schedules: every [range] in the canonical order; the [t]-th
    [range] starting [t] keys further; the same, four times slower; and
    every [range] starting one key further. *)
Definition in_order : schedule := fun _ ks => ks.
Definition rotating : schedule := fun t ks => rotate t ks.
Definition stalling : schedule := fun t ks => rotate (t / 4) ks.
Definition shifted : schedule := fun _ ks => rotate 1 ks.

(** A shuffle: the [j]-th call cuts the palette after [j + 1] colours. *)
Definition cut (j : nat) (pal : list RGBA) : list RGBA := rotate (S j) pal.

(** ** The claims that fail, as the specification words them *)

(** C6, as the specification words it: a line is sampled along one axis
    only, the x axis when |b| is the larger coefficient and the y axis
    otherwise. *)
Definition sampled_on_one_axis (l : line) : Prop :=
  candidates l =
  if abs (la l) <? abs (lb l) then map (sample_x l) (seq 0 maxX)
  else map (sample_y l) (seq 0 maxY).

(** C5, as the specification words it: the site takes the first colour of
    the shuffled palette that is not in [seen]. *)
Definition first_free (seen pal : list RGBA) : option RGBA :=
  List.find (fun c => bool_decide (c ∉ seen)) pal.

Definition assigns_first_free (KNN : list float -> nat -> list nat)
    (shuffle : nat -> list RGBA -> list RGBA) (al : adjList) (st : state)
    (k : xy) : Prop :=
  ∀ i p seen st',
    nearest KNN k = Some i -> pts st !! i = Some p ->
    seen_colors KNN al (pts st) p = Some seen ->
    colorSite KNN shuffle al st k = Some st' ->
    color <$> pts st' !! i = first_free seen (palette st').

(** C8, as the specification words it: over the run every site is written
    once. *)
Definition written_once (sites : list point) (ws : list (nat * RGBA)) : Prop :=
  ∀ i, (i < length sites)%nat ->
       length (filter (fun w => w.1 = i) ws) = 1%nat.

(** C1, as the specification words it. *)
Definition properly_coloured (KNN : list float -> nat -> list nat)
    (al : adjList) (st : state) : Prop :=
  ∀ A B, neighbor al A B -> color_at KNN st A ≠ color_at KNN st B.

(** C3, as the specification words it: a visit that finds every colour of
    the palette among the neighbours stops the program. *)
Definition exhaustion_is_fatal (KNN : list float -> nat -> list nat)
    (shuffle : nat -> list RGBA -> list RGBA) (al : adjList) (st : state)
    (k : xy) : Prop :=
  ∀ i p seen,
    nearest KNN k = Some i -> pts st !! i = Some p ->
    seen_colors KNN al (pts st) p = Some seen ->
    (∀ c, c ∈ palette st -> c ∈ seen) ->
    colorSite KNN shuffle al st k = None.

(** C4, as the specification words it: the seed (here, the shuffles) and
    the sites fix the result, whatever order the [range] statements take. *)
Definition seed_determines_run (KNN : list float -> nat -> list nat)
    (shuffle : nat -> list RGBA -> list RGBA) (fuel : nat)
    (sites : list point) : Prop :=
  ∀ sch1 sch2, fair sch1 -> fair sch2 ->
    pipeline KNN shuffle sch1 fuel sites = pipeline KNN shuffle sch2 fuel sites.

(** What [add] keeps true of an adjacency list: every key has a neighbour,
    and every neighbour is flagged [true]. *)
Definition well_kept (l : adjList) : Prop :=
  ∀ k v, l !! k = Some v -> v ≠ ∅ ∧ ∀ n b, v !! n = Some b -> b = true.

(** Every key and every neighbour of the list is at a site of [sites]. *)
Definition at_sites (sites : list point) (l : adjList) : Prop :=
  ∀ A B, neighbor l A B ->
    (∃ p, p ∈ sites ∧ point_xy p = A) ∧ (∃ q, q ∈ sites ∧ point_xy q = B).

(** A float64 that is [+Inf] or NaN: what a squared distance to a point
    with an unbounded coordinate is. *)
Definition upper (x : float) : Prop :=
  Prim2SF x = S754_infinity false ∨ Prim2SF x = S754_nan.

(** What every visit of [colorPoints] keeps, in whatever order the keys
    are visited and however often: the sites stay where they are, and two
    distinct linked keys that show one colour show black. *)
Definition clash_free (KNN : list float -> nat -> list nat) (al : adjList)
    (sites : list point) (st : state) : Prop :=
  vec <$> pts st = vec <$> sites ∧
  ∀ A B c, neighbor al A B -> A ≠ B ->
           color_of KNN (pts st) A = Some c ->
           color_of KNN (pts st) B = Some c -> c = black.

(** [func (p *point) PlaneDistance(val float64, dim int) float64] *)
Definition PlaneDistance (p : point) (val : float) (dim : nat) : float :=
  let tmp := GetValue p dim - val in tmp * tmp.

(** ** The image *)

(** [image.NewRGBA(image.Rect(0, 0, maxX, maxY))]: the pixels that were
    set, by position; a pixel that was never set reads as the zero colour,
    and a position outside the rectangle is neither read nor written. *)
Abbreviation image := (gmap (nat * nat) RGBA).

Definition transparent : RGBA := mkRGBA 0 0 0 0.

(** [color.RGBA{128, 128, 128, 255}] *)
Definition gray : RGBA := mkRGBA 128 128 128 255.

Definition in_bounds (x y : nat) : bool := Nat.ltb x maxX && Nat.ltb y maxY.

(** [img.At(x, y)] *)
Definition img_At (im : image) (x y : nat) : RGBA :=
  if in_bounds x y then default transparent (im !! (x, y)) else transparent.

(** [img.Set(x, y, c)] *)
Definition img_Set (im : image) (x y : nat) (c : RGBA) : image :=
  if in_bounds x y then <[(x, y) := c]> im else im.

(** [&point{vec: []float64{float64(x), float64(y)}}], as a key. *)
Definition pixel (x y : nat) : xy := XY (float64_of_int x) (float64_of_int y).

(** The body of the loop that fills the cells: the nearest site is looked
    up first, and its colour is set where [img.At(x, y).RGBA()] has alpha
    0, which is where the alpha byte of the pixel is 0. *)
Definition fill_pixel (KNN : list float -> nat -> list nat) (ps : list point)
    (im : image) (x y : nat) : option image :=
  c ← color_of KNN ps (pixel x y);
  Some (if decide (cA (img_At im x y) = 0%Z) then img_Set im x y c else im).

(** [for x := 0; x < maxX; x++ { for y := 0; y < maxY; y++ { ... } }] *)
Definition fill (KNN : list float -> nat -> list nat) (ps : list point)
    (im : image) : option image :=
  for_each (fun im x => for_each (fun im y => fill_pixel KNN ps im x y)
                          (seq 0 maxY) im)
           (seq 0 maxX) im.

(** The values of [x] in [for ; x < stop; x += step]. *)
Fixpoint count_by (fuel x stop step : nat) : list nat :=
  match fuel with
  | O => []
  | S fuel' =>
      if Nat.ltb x stop then x :: count_by fuel' (x + step) stop step else []
  end.

(** The two loops that draw the grid: a gray column every [maxX / 58]
    pixels, then a gray row every [maxY / 20] pixels. *)
Definition grid (im : image) : image :=
  let im1 :=
    fold_left (fun im x => fold_left (fun im y => img_Set im x y gray)
                             (seq 0 maxY) im)
              (count_by maxX 0 maxX (maxX / 58)) im in
  fold_left (fun im y => fold_left (fun im x => img_Set im x y gray)
                           (seq 0 maxX) im)
            (count_by maxY 0 maxY (maxY / 20)) im1.

(** The part of [main] after [colorPoints], up to the encoding: the image
    [im] is what the calls of [drawNear] left. *)
Definition render (KNN : list float -> nat -> list nat) (ps : list point)
    (im : image) : option image :=
  im1 ← fill KNN ps im; Some (grid im1).

(** What the filling loop leaves at a pixel that showed [v]. *)
Definition filled (KNN : list float -> nat -> list nat) (ps : list point)
    (x y : nat) (v : RGBA) : RGBA :=
  if decide (cA v = 0%Z) then default transparent (color_of KNN ps (pixel x y))
  else v.

(** The candidates of a line whose coefficients a and b are 0 and -0, in
    the order of the two loops of [drawNear]: the quotient that either
    loop computes is NaN, and so is the coordinate made from it. *)
Definition nan_candidates : list (list float) :=
  map (fun x => [float64_of_int x; nan]) (seq 0 maxX) ++
  map (fun y => [nan; float64_of_int y]) (seq 0 maxY).

(** The map [seen] once [enStack] has taken the keys [taken], one in each
    call. *)
Definition seen_after (taken : list xy) : gmap xy bool :=
  fold_left (fun seen k => <[k := true]> seen) taken ∅.

(** A schedule that differs from [in_order]: the first [range] of the
    second call, and every one after it, goes backwards. *)
Definition backwards : schedule :=
  fun t ks => if Nat.ltb t 2 then ks else rev ks.

(** * Properties *)

Arguments maxX : simpl never.
Arguments maxY : simpl never.

(** A decidable statement about concrete inputs, settled by evaluating its
    decision procedure. *)
Ltac by_computation := apply (bool_decide_unpack _); vm_compute; exact I.

(** ** The model on small inputs *)

(** One site alone is linked to nothing. *)
Example single_site_adjacency :
  buildAdjacency (scanKNN [site 3 4]) [site 3 4] = Some ∅.
Proof. reflexivity. Qed.

(** The bisector of two sites on a horizontal line is vertical: [b] is
    [-0], the first loop of [drawNear] divides by it and every candidate of
    that loop has a NaN ordinate; the second loop finds the line. *)
Example vertical_bisector :
  biscector (site 0 0) (site 10 0) = Line 10 (-0) 50 ∧
  sample_x (Line 10 (-0) 50) 7 = [7; nan] ∧
  sample_y (Line 10 (-0) 50) 7 = [5; 7].
Proof. repeat split. Qed.


(** The adjacency list of two sites on a vertical line: one edge. *)
Example two_sites_adjacency :
  buildAdjacency (scanKNN [site 0 0; site 0 10]) [site 0 0; site 0 10]
  = Some (link ∅ (site 0 0) (site 0 10)).
Proof.
  refine (@bool_decide_unpack _ (decide_rel (=) _ _) _). vm_compute. exact I.
Qed.

(** ** Loops *)

Lemma for_each_app {A S : Type} (f : S -> A -> option S) xs ys s :
  for_each f (xs ++ ys) s = (s' ← for_each f xs s; for_each f ys s').
Proof.
  revert s. induction xs as [|x xs IH]; intros s; simpl; [done|].
  destruct (f s x) as [s1|]; simpl; [apply IH | done].
Qed.

Lemma for_each_map {A B S : Type} (f : S -> B -> option S) (g : A -> B) xs s :
  for_each f (map g xs) s = for_each (fun s x => f s (g x)) xs s.
Proof.
  revert s. induction xs as [|x xs IH]; intros s; simpl; [done|].
  destruct (f s (g x)); simpl; [apply IH | done].
Qed.

Lemma for_each_ext {A S : Type} (f g : S -> A -> option S) xs s :
  (∀ s x, f s x = g s x) -> for_each f xs s = for_each g xs s.
Proof.
  intros E. revert s. induction xs as [|x xs IH]; intros s; simpl; [done|].
  rewrite E. destruct (g s x); simpl; [apply IH | done].
Qed.

(** An invariant of the loop body is an invariant of the loop. *)
Lemma for_each_invariant {A S : Type} (P : S -> Prop) (f : S -> A -> option S) xs :
  (∀ s x s', x ∈ xs -> P s -> f s x = Some s' -> P s') ->
  ∀ s s', P s -> for_each f xs s = Some s' -> P s'.
Proof.
  induction xs as [|x xs IH]; intros Hf s s' Hs; simpl.
  - intros [= <-]. exact Hs.
  - destruct (f s x) as [s1|] eqn:E; simpl; [|done].
    apply IH.
    + intros s2 y s3 Hy. apply Hf. now right.
    + apply (Hf s x); [left|done..].
Qed.

(** ** float64 facts used below *)

Lemma float_nan x : Prim2SF x = S754_nan -> x = nan.
Proof. intros H. rewrite <- (SF2Prim_Prim2SF x), H. reflexivity. Qed.

Lemma add_nan_l y : nan + y = nan.
Proof. apply float_nan. rewrite add_spec. reflexivity. Qed.

Lemma add_nan_r x : x + nan = nan.
Proof.
  apply float_nan. rewrite add_spec.
  change (Prim2SF nan) with S754_nan. now destruct (Prim2SF x).
Qed.

Lemma sub_nan_l y : nan - y = nan.
Proof. apply float_nan. rewrite sub_spec. reflexivity. Qed.

Lemma mul_nan_l y : nan * y = nan.
Proof. apply float_nan. rewrite mul_spec. reflexivity. Qed.

(** [x - x] is [+0] for every number (round to nearest). *)
Lemma sub_diag x : finite64 x = true -> x - x = 0.
Proof.
  unfold finite64. intros F.
  rewrite <- (SF2Prim_Prim2SF (x - x)), sub_spec.
  destruct (Prim2SF x) as [[]|[]| |s m e]; try discriminate; try reflexivity.
  unfold SF64sub, SFsub. rewrite Z.sub_diag. reflexivity.
Qed.

(** ** The adjacency list *)

Lemma elem_of_keys {V : Type} (m : gmap xy V) k : k ∈ keys m ↔ is_Some (m !! k).
Proof.
  unfold keys. rewrite list_elem_of_fmap. split.
  - intros [[k' v] [-> H]]. apply elem_of_map_to_list in H. now exists v.
  - intros [v H]. exists (k, v). split; [done|]. now apply elem_of_map_to_list.
Qed.

Lemma NoDup_keys {V : Type} (m : gmap xy V) : NoDup (keys m).
Proof. apply NoDup_fst_map_to_list. Qed.

Lemma length_keys {V : Type} (m : gmap xy V) : length (keys m) = size m.
Proof. unfold keys. now rewrite length_fmap, length_map_to_list. Qed.

Lemma elem_of_neighbors l A B : B ∈ neighbors l A ↔ neighbor l A B.
Proof.
  unfold neighbors, neighbor. rewrite elem_of_keys. split.
  - destruct (l !! A) as [v|]; simpl.
    + intros H. now exists v.
    + rewrite lookup_empty. now intros [? ?].
  - intros [v [-> H]]. exact H.
Qed.

Lemma add_lookup l a b A :
  add l a b !! A =
  if decide (point_xy a = A)
  then Some (<[point_xy b := true]> (default ∅ (l !! point_xy a)))
  else l !! A.
Proof.
  unfold add. destruct (l !! point_xy a) as [v|] eqn:E; simpl.
  - rewrite lookup_insert, E. reflexivity.
  - rewrite lookup_insert_eq. simpl. rewrite !lookup_insert.
    case_decide; reflexivity.
Qed.

Lemma neighbor_add l a b A B :
  neighbor (add l a b) A B ↔
  neighbor l A B ∨ (A = point_xy a ∧ B = point_xy b).
Proof.
  unfold neighbor. rewrite add_lookup. case_decide as E.
  - subst A. split.
    + intros [v [[= <-] Hv]]. rewrite lookup_insert in Hv.
      case_decide as E2; [now right|]. left.
      destruct (l !! point_xy a) as [w|]; simpl in Hv.
      * now exists w.
      * rewrite lookup_empty in Hv. now destruct Hv.
    + intros [[v [Hl Hv]]|[_ ->]]; eexists; (split; [reflexivity|]).
      * rewrite Hl. simpl. rewrite lookup_insert. case_decide; [now eexists|done].
      * rewrite lookup_insert_eq. now eexists.
  - split; [now left|]. intros [H|[-> _]]; [exact H|done].
Qed.

Lemma neighbor_link l a b A B :
  neighbor (link l a b) A B ↔
  neighbor l A B ∨ (A = point_xy a ∧ B = point_xy b)
                 ∨ (A = point_xy b ∧ B = point_xy a).
Proof. unfold link. rewrite !neighbor_add. tauto. Qed.

Lemma symmetric_empty : symmetric ∅.
Proof.
  intros A B. unfold neighbor. split; intros [v [H _]];
    now rewrite lookup_empty in H.
Qed.

Lemma symmetric_link l a b : symmetric l -> symmetric (link l a b).
Proof.
  intros S A B. rewrite !neighbor_link, (S A B). tauto.
Qed.

Section TreeFacts.

Variable KNN : list float -> nat -> list nat.
Variable sites : list point.

(** Whatever [record] leaves is what it found, or one [link] more. *)
Lemma record_cases al n al' :
  record KNN sites al n = Some al' ->
  al' = al ∨ ∃ n0 n1, n0 ∈ sites ∧ n1 ∈ sites ∧ al' = link al n0 n1.
Proof.
  unfold record. destruct (KNN n 2) as [|i0 [|i1 r]]; try discriminate.
  destruct (sites !! i0) as [n0|] eqn:E0; simpl; [|discriminate].
  destruct (sites !! i1) as [n1|] eqn:E1; simpl; [|discriminate].
  destruct (_ <? _); intros [= <-]; [right|now left].
  exists n0, n1. eauto using list_elem_of_lookup_2.
Qed.

Lemma record_symmetric al n al' :
  symmetric al -> record KNN sites al n = Some al' -> symmetric al'.
Proof.
  intros S H. destruct (record_cases _ _ _ H) as [->|(n0 & n1 & _ & _ & ->)];
    [exact S | now apply symmetric_link].
Qed.

(** [drawNear] is one pass over the candidates of its line. *)
Lemma drawNear_candidates l al :
  drawNear KNN sites l al = for_each (record KNN sites) (candidates l) al.
Proof.
  unfold drawNear, candidates. now rewrite for_each_app, !for_each_map.
Qed.

Lemma buildAdjacency_candidates :
  buildAdjacency KNN sites = for_each (record KNN sites) (all_candidates sites) ∅.
Proof.
  unfold buildAdjacency, all_candidates.
  generalize (∅ : adjList). induction (pairs sites) as [|pq ps IH]; intros al.
  - reflexivity.
  - cbn [for_each flat_map]. rewrite for_each_app, drawNear_candidates.
    destruct (for_each _ (candidates _) al); [apply IH | done].
Qed.

(** The adjacency list that [main] hands to [colorPoints] is symmetric. *)
Lemma buildAdjacency_symmetric al :
  buildAdjacency KNN sites = Some al -> symmetric al.
Proof.
  rewrite buildAdjacency_candidates.
  apply (for_each_invariant symmetric); [|exact symmetric_empty].
  intros s x s' _. apply record_symmetric.
Qed.

End TreeFacts.

(** ** Lines through coinciding points *)

Lemma biscector_self p x y :
  vec p = [x; y] -> finite64 x = true -> finite64 y = true ->
  la (biscector p p) = 0 ∧ lb (biscector p p) = -0.
Proof.
  intros Hv Fx Fy. unfold biscector, perp, point_line, GetValue. rewrite Hv.
  simpl. rewrite (sub_diag x Fx), (sub_diag y Fy). split; reflexivity.
Qed.

Lemma sample_x_degenerate l x :
  la l = 0 -> lb l = -0 -> sample_x l x = [float64_of_int x; nan].
Proof.
  intros Ha Hb. unfold sample_x. rewrite Ha, Hb.
  change (- (0 / -0)) with nan. now rewrite mul_nan_l, add_nan_l.
Qed.

Lemma sample_y_degenerate l y :
  la l = 0 -> lb l = -0 -> sample_y l y = [nan; float64_of_int y].
Proof.
  intros Ha Hb. unfold sample_y. rewrite Ha, Hb.
  change (- (-0 / 0)) with nan. now rewrite mul_nan_l, add_nan_l.
Qed.

Lemma Distance_nan_snd a v : Distance [a; nan] v = nan.
Proof.
  unfold Distance. simpl. now rewrite sub_nan_l, mul_nan_l, add_nan_r.
Qed.

Lemma Distance_nan_fst b v : Distance [nan; b] v = nan.
Proof.
  unfold Distance. simpl.
  now rewrite sub_nan_l, mul_nan_l, add_nan_r, add_nan_l.
Qed.

(** A candidate with a NaN coordinate is at distance NaN from every site,
    and the test [math.Abs(NaN - NaN) < 1] fails. *)
Lemma record_nan KNN sites al a b al' :
  a = nan ∨ b = nan ->
  record KNN sites al [a; b] = Some al' -> al' = al.
Proof.
  intros Hn. unfold record.
  destruct (KNN [a; b] 2%nat) as [|i0 [|i1 r]]; try discriminate.
  destruct (sites !! i0) as [n0|]; simpl; [|discriminate].
  destruct (sites !! i1) as [n1|]; simpl; [|discriminate].
  assert (E : ∀ v, Distance [a; b] v = nan).
  { intros v. destruct Hn as [-> | ->];
      [apply Distance_nan_fst | apply Distance_nan_snd]. }
  rewrite !E. change (abs (nan - nan) <? 1) with false. congruence.
Qed.

Lemma candidates_degenerate l n :
  la l = 0 -> lb l = -0 -> n ∈ candidates l ->
  ∃ a b, n = [a; b] ∧ (a = nan ∨ b = nan).
Proof.
  intros Ha Hb. unfold candidates. rewrite elem_of_app, !list_elem_of_fmap.
  intros [[x [-> _]]|[y [-> _]]].
  - rewrite sample_x_degenerate by done. eauto.
  - rewrite sample_y_degenerate by done. eauto.
Qed.

Lemma length_candidates l : length (candidates l) = (maxX + maxY)%nat.
Proof. unfold candidates. now rewrite length_app, !length_map, !length_seq. Qed.

(** ** The assignment loop *)

Lemma assign_loop i seen pal st :
  fold_left (assign i seen) pal st =
  State (fold_left (fun ps c => set_color ps i c) (filter (.∉ seen) pal) (pts st))
        (palette st) (shuffles st)
        (writes st ++ map (pair i) (filter (.∉ seen) pal)).
Proof.
  revert st. induction pal as [|c pal IH]; intros st; simpl.
  - destruct st. simpl. now rewrite app_nil_r.
  - rewrite IH, filter_cons. unfold assign.
    destruct (decide (c ∈ seen)) as [Hc|Hc].
    + rewrite decide_False by tauto. reflexivity.
    + rewrite decide_True by done. simpl. now rewrite <- app_assoc.
Qed.

(** Assigning one colour after another leaves the last one. *)
Lemma set_color_loop ps i p free :
  ps !! i = Some p ->
  fold_left (fun ps c => set_color ps i c) free ps =
  <[i := Point (vec p) (default (color p) (list.last free))]> ps.
Proof.
  revert ps p. induction free as [|c free IH]; intros ps p Hp; simpl.
  - symmetry. apply list_insert_id. now destruct p.
  - unfold set_color at 2. rewrite Hp.
    rewrite (IH _ (Point (vec p) c)).
    + rewrite list_insert_insert_eq. simpl. rewrite last_cons.
      now destruct (list.last free).
    + apply list_lookup_insert_eq. now apply lookup_lt_Some in Hp.
Qed.

Section ColorerFacts.

Variable KNN : list float -> nat -> list nat.
Variable shuffle : nat -> list RGBA -> list RGBA.

(** What one iteration of [colorPoints] does: the site keeps its colour or
    takes the last colour of the shuffled palette that no neighbour shows,
    with one assignment for every such colour. *)
Lemma colorSite_spec al st k i p seen :
  nearest KNN k = Some i ->
  pts st !! i = Some p ->
  seen_colors KNN al (pts st) p = Some seen ->
  let pal := shuffle (shuffles st) (palette st) in
  let free := filter (.∉ seen) pal in
  colorSite KNN shuffle al st k =
  Some (State (<[i := Point (vec p) (default (color p) (list.last free))]> (pts st))
              pal (S (shuffles st)) (writes st ++ map (pair i) free)).
Proof.
  intros Hi Hp Hs pal free. unfold colorSite. rewrite Hi. simpl.
  rewrite Hp. simpl. rewrite Hs. simpl.
  rewrite assign_loop. simpl. now rewrite (set_color_loop _ _ p).
Qed.

Lemma colorSite_inv al st k st' :
  colorSite KNN shuffle al st k = Some st' ->
  ∃ i p seen, nearest KNN k = Some i ∧ pts st !! i = Some p ∧
              seen_colors KNN al (pts st) p = Some seen.
Proof.
  unfold colorSite. intros H.
  destruct (nearest KNN k) as [i|] eqn:Hi; [|discriminate H]. simpl in H.
  destruct (pts st !! i) as [p|] eqn:Hp; [|discriminate H]. simpl in H.
  destruct (seen_colors KNN al (pts st) p) as [seen|] eqn:Hs; [|discriminate H].
  now exists i, p, seen.
Qed.

End ColorerFacts.

(** ** Sites, stores and counting *)

Lemma point_xy_vec p q : vec p = vec q -> point_xy p = point_xy q.
Proof. unfold point_xy, GetValue. now intros ->. Qed.

Lemma lookup_same_vec (ps ps' : list point) i p :
  vec <$> ps' = vec <$> ps -> ps !! i = Some p ->
  ∃ p', ps' !! i = Some p' ∧ vec p' = vec p.
Proof.
  intros Hv Hp. assert (E : (vec <$> ps') !! i = (vec <$> ps) !! i) by now rewrite Hv.
  rewrite !list_lookup_fmap, Hp in E.
  destruct (ps' !! i) as [p'|]; simpl in E; [|discriminate].
  exists p'. split; [done|congruence].
Qed.

Lemma located_same_vec KNN ps ps' al :
  vec <$> ps' = vec <$> ps -> located KNN ps al -> located KNN ps' al.
Proof.
  intros Hv Hl k Hk. destruct (Hl k Hk) as (i & p & Hi & Hp & Hxy).
  destruct (lookup_same_vec _ _ _ _ Hv Hp) as (p' & Hp' & Hvp).
  exists i, p'. repeat split; [done..|]. rewrite <- Hxy. now apply point_xy_vec.
Qed.

Lemma Forall2_elem_of_l {A B} (R : A -> B -> Prop) l k x :
  Forall2 R l k -> x ∈ l -> ∃ y, y ∈ k ∧ R x y.
Proof.
  induction 1 as [|a b l k Hab _ IH]; intros Hx.
  - now apply elem_of_nil in Hx.
  - apply elem_of_cons in Hx as [->|Hx].
    + exists b. split; [left|done].
    + destruct (IH Hx) as (y & Hy & HR). exists y. split; [now right|done].
Qed.

Lemma Forall2_elem_of_r {A B} (R : A -> B -> Prop) l k y :
  Forall2 R l k -> y ∈ k -> ∃ x, x ∈ l ∧ R x y.
Proof.
  induction 1 as [|a b l k Hab _ IH]; intros Hy.
  - now apply elem_of_nil in Hy.
  - apply elem_of_cons in Hy as [->|Hy].
    + exists a. split; [left|done].
    + destruct (IH Hy) as (x & Hx & HR). exists x. split; [now right|done].
Qed.

(** More distinct values than a list is long do not all occur in it. *)
Lemma pigeonhole {A} `{EqDecision A} (l k : list A) :
  NoDup l -> (length k < length l)%nat -> ∃ x, x ∈ l ∧ x ∉ k.
Proof.
  intros Hnd Hlen.
  destruct (decide (Forall (.∈ k) l)) as [Hall|Hn].
  - exfalso. assert (Hs : l ⊆+ k).
    { apply NoDup_submseteq; [done|]. now apply list.Forall_forall. }
    apply submseteq_length in Hs. lia.
  - apply not_Forall_Exists in Hn; [|apply _].
    apply list.Exists_exists in Hn as (x & Hx & Hnx). now exists x.
Qed.

Lemma color_of_insert_ne KNN ps i j n pt :
  nearest KNN n = Some j -> j ≠ i ->
  color_of KNN (<[i := pt]> ps) n = color_of KNN ps n.
Proof.
  intros Hn Hne. unfold color_of. rewrite Hn. simpl.
  now rewrite list_lookup_insert_ne.
Qed.

Lemma color_of_insert_eq KNN (ps : list point) i n pt :
  nearest KNN n = Some i -> (i < length ps)%nat ->
  color_of KNN (<[i := pt]> ps) n = Some (color pt).
Proof.
  intros Hn Hlt. unfold color_of. rewrite Hn. simpl.
  now rewrite list_lookup_insert_eq.
Qed.

(** ** Colouring along a peeled order *)

Section Colouring.

Variable KNN : list float -> nat -> list nat.
Variable shuffle : nat -> list RGBA -> list RGBA.
Variable al : adjList.
Variable st0 : state.

Hypothesis Hsym : symmetric al.
Hypothesis Hloc : located KNN (pts st0) al.
Hypothesis Hinit : ∀ p, p ∈ pts st0 -> color p ∉ palette st0.
Hypothesis Hnd : NoDup (palette st0).
Hypothesis Hlen : length (palette st0) = 6%nat.
Hypothesis Hshuf : ∀ j l, shuffle j l ≡ₚ l.

Lemma coloured_init : coloured KNN al st0 [] st0.
Proof.
  split; try (intros ? H; now apply elem_of_nil in H).
  - reflexivity.
  - reflexivity.
  - intros i p Hp. now right.
  - intros A B H. now apply elem_of_nil in H.
Qed.

Lemma coloured_located post st : coloured KNN al st0 post st -> located KNN (pts st) al.
Proof. intros C. eapply located_same_vec; [apply C | exact Hloc]. Qed.

(** Two keys of the adjacency list found at one site are one key. *)
Lemma located_inj ps k k' i :
  located KNN ps al -> is_Some (al !! k) -> is_Some (al !! k') ->
  nearest KNN k = Some i -> nearest KNN k' = Some i -> k = k'.
Proof.
  intros L Hk Hk' Hi Hi'.
  destruct (L k Hk) as (j & p & Hj & Hp & <-).
  destruct (L k' Hk') as (j' & p' & Hj' & Hp' & <-).
  congruence.
Qed.

(** A key not yet visited still shows the colour it had at the start,
    which the palette does not hold. *)
Lemma coloured_unvisited post st n :
  coloured KNN al st0 post st -> is_Some (al !! n) -> n ∉ post ->
  ∃ c, color_of KNN (pts st) n = Some c ∧ c ∉ palette st0.
Proof.
  intros C Hn Hnot.
  destruct (Hloc n Hn) as (j & q0 & Hj & Hq0 & Hxy).
  destruct (lookup_same_vec _ _ _ _ (col_vec C) Hq0) as (q & Hq & Hvq).
  exists (color q). unfold color_of. rewrite Hj. simpl. rewrite Hq. split; [done|].
  destruct (col_frame C j q Hq) as [(k & Hk & Hkj)|H0].
  - exfalso. apply Hnot.
    now rewrite (located_inj (pts st0) n k j Hloc Hn (col_dom C k Hk) Hj Hkj).
  - apply Hinit. eapply list_elem_of_lookup_2. exact H0.
Qed.

Lemma coloured_step post st k :
  coloured KNN al st0 post st -> is_Some (al !! k) -> k ∉ post ->
  (length (filter (.∈ post) (neighbors al k)) < 6)%nat ->
  ∃ st', colorSite KNN shuffle al st k = Some st' ∧ coloured KNN al st0 (k :: post) st'.
Proof.
  intros C Hk Hnk Hdeg.
  pose proof (coloured_located _ _ C) as Lst.
  destruct (Lst k Hk) as (i & p & Hi & Hp & Hxy).
  (* the colours the neighbours show *)
  assert (Hnb : ∀ n, n ∈ neighbors al k -> is_Some (al !! n)).
  { intros n Hn. apply elem_of_neighbors, Hsym in Hn.
    destruct Hn as (v & Hv & _). now exists v. }
  destruct (mapM (color_of KNN (pts st)) (neighbors al k)) as [seen|] eqn:Hseen.
  2:{ exfalso. apply eq_None_not_Some in Hseen. apply Hseen.
      apply mapM_is_Some, list.Forall_forall.
      intros n Hn. destruct (Lst n (Hnb n Hn)) as (j & q & Hj & Hq & _).
      unfold compose, color_of. rewrite Hj. simpl. rewrite Hq. now eexists. }
  apply mapM_Some in Hseen as Hall.
  (* a colour of the palette that none of them shows *)
  set (pal := shuffle (shuffles st) (palette st)).
  assert (Hpal : pal ≡ₚ palette st0).
  { unfold pal. rewrite Hshuf. apply C. }
  assert (Hfree : ∃ c, c ∈ pal ∧ c ∉ seen).
  { set (shown := (fun n => default black (color_of KNN (pts st) n))
                    <$> filter (.∈ post) (neighbors al k)).
    destruct (pigeonhole pal shown) as (c & Hc & Hnc).
    - now rewrite Hpal.
    - unfold shown. rewrite length_fmap, Hpal, Hlen. exact Hdeg.
    - exists c. split; [done|]. intros Hin. apply Hnc.
      destruct (Forall2_elem_of_r _ _ _ _ Hall Hin) as (n & Hn & Hcn).
      apply list_elem_of_fmap. exists n. rewrite Hcn. split; [done|].
      apply list_elem_of_filter. split; [|done].
      destruct (decide (n ∈ post)) as [|Hno]; [done|exfalso].
      destruct (coloured_unvisited _ _ n C (Hnb n Hn) Hno) as (c' & Hc' & Hout).
      apply Hout. rewrite <- Hpal. congruence. }
  destruct Hfree as (c0 & Hc0 & Hc0s).
  set (free := filter (.∉ seen) pal).
  assert (Hlast : ∃ c, list.last free = Some c ∧ c ∈ pal ∧ c ∉ seen).
  { destruct (list.last free) as [c|] eqn:El.
    - exists c. split; [done|]. apply last_Some in El as [l' El].
      assert (Hc : c ∈ free) by (rewrite El; apply elem_of_app; right; left).
      now apply list_elem_of_filter in Hc as [? ?].
    - apply last_None in El. exfalso.
      assert (Hc : c0 ∈ free) by now apply list_elem_of_filter.
      rewrite El in Hc. now apply elem_of_nil in Hc. }
  destruct Hlast as (c & Hlast & Hc & Hcs).
  assert (Hseen' : seen_colors KNN al (pts st) p = Some seen).
  { unfold seen_colors. now rewrite Hxy. }
  eexists. split; [apply (colorSite_spec _ _ _ _ _ _ _ _ Hi Hp Hseen')|].
  fold pal. fold free. rewrite Hlast. simpl.
  assert (Hlt : (i < length (pts st))%nat) by now apply lookup_lt_Some in Hp.
  assert (Hother : ∀ n, n ∈ post ->
            color_of KNN (<[i := Point (vec p) c]> (pts st)) n
            = color_of KNN (pts st) n).
  { intros n Hn. destruct (Lst n (col_dom C n Hn)) as (j & q & Hj & Hq & Hq').
    apply (color_of_insert_ne _ _ _ j); [done|]. intros ->. apply Hnk.
    now rewrite (located_inj (pts st) k n i Lst Hk (col_dom C n Hn) Hi Hj). }
  assert (Hself : color_of KNN (<[i := Point (vec p) c]> (pts st)) k = Some c).
  { now rewrite (color_of_insert_eq _ _ i). }
  assert (Hclash : ∀ B, B ∈ post -> neighbor al k B ->
            color_of KNN (pts st) B ≠ Some c).
  { intros B HB HkB E. apply Hcs.
    apply elem_of_neighbors in HkB.
    destruct (Forall2_elem_of_l _ _ _ _ Hall HkB) as (y & Hy & Hy').
    congruence. }
  split; simpl.
  - intros k' [->|Hk']%elem_of_cons; [done|]. now apply C.
  - rewrite list_fmap_insert. simpl. rewrite list_insert_id; [apply C|].
    now rewrite list_lookup_fmap, Hp.
  - exact Hpal.
  - intros j q Hq. destruct (decide (j = i)) as [->|Hne].
    + left. exists k. split; [left|done].
    + rewrite list_lookup_insert_ne in Hq by done.
      destruct (col_frame C j q Hq) as [(k' & Hk' & Hkj)|H0]; [left|now right].
      exists k'. split; [now right|done].
  - intros k' [->|Hk']%elem_of_cons.
    + exists c. split; [exact Hself|]. now rewrite <- Hpal.
    + unfold color_at. simpl. rewrite (Hother k' Hk'). now apply C.
  - unfold color_at. simpl.
    intros A B [->|HA]%elem_of_cons [->|HB]%elem_of_cons HAB Hne.
    + done.
    + rewrite Hself, (Hother B HB). intros E. now apply (Hclash B HB HAB).
    + rewrite Hself, (Hother A HA). intros E.
      now apply (Hclash A HA (proj1 (Hsym A k) HAB)).
    + rewrite (Hother A HA), (Hother B HB). now apply C.
Qed.

(** The loop of [colorPoints] over a peeled order of keys of [al] runs to
    its end, and leaves the sites coloured. *)
Lemma coloured_run stack :
  peeled al stack -> (∀ k, k ∈ stack -> is_Some (al !! k)) ->
  ∃ st, for_each (colorSite KNN shuffle al) (rev stack) st0 = Some st ∧
        coloured KNN al st0 stack st.
Proof.
  induction stack as [|k post IH]; intros Hp Hdom.
  - exists st0. split; [done|apply coloured_init].
  - destruct Hp as (Hdeg & Hnk & Hp).
    destruct IH as (st & Hrun & C); [done| |].
    { intros k' Hk'. apply Hdom. now right. }
    destruct (coloured_step post st k C) as (st' & Hstep & C'); [|done..|].
    { apply Hdom. left. }
    exists st'. split; [|done].
    simpl. rewrite for_each_app, Hrun. simpl. now rewrite Hstep.
Qed.

End Colouring.

(** ** The elimination order *)

Lemma enStack_S sch fuel t l seen :
  enStack sch (S fuel) t l seen =
  match chosen sch t l seen with
  | Some k =>
      if decide (size (<[k := true]> seen) = size l) then Some [k]
      else rest ← enStack sch fuel (S t) l (<[k := true]> seen); Some (k :: rest)
  | None => Some []
  end.
Proof.
  unfold chosen. cbn [enStack].
  destruct (List.find _ _); [done|]. now destruct (sch _ _).
Qed.

Lemma chosen_key sch t l seen k :
  fair sch -> chosen sch t l seen = Some k -> is_Some (l !! k).
Proof.
  intros F. unfold chosen.
  destruct (List.find _ _) as [k'|] eqn:E.
  - intros [= ->]. apply find_some in E as [_ E]. unfold low in E.
    destruct (l !! k); [done|discriminate E].
  - intros H. apply elem_of_keys. rewrite <- (F (2 * t + 1)%nat).
    destruct (sch (2 * t + 1)%nat (keys l)) as [|k' r]; [discriminate H|].
    injection H as ->. left.
Qed.

(** Under a fair schedule [enStack] returns keys of the adjacency list. *)
Lemma enStack_keys sch fuel t l seen out :
  fair sch -> enStack sch fuel t l seen = Some out ->
  ∀ k, k ∈ out -> is_Some (l !! k).
Proof.
  intros F. revert t seen out.
  induction fuel as [|fuel IH]; intros t seen out; [discriminate|].
  rewrite enStack_S. destruct (chosen sch t l seen) as [k|] eqn:E.
  - pose proof (chosen_key _ _ _ _ _ F E) as Hk.
    destruct (decide _).
    + intros [= <-] k' Hk'. apply list_elem_of_singleton in Hk'. now subst.
    + destruct (enStack sch fuel (S t) l _) as [rest|] eqn:Er; [|discriminate].
      intros [= <-] k' [->|Hk']%elem_of_cons; [done|]. eapply IH; eauto.
  - intros [= <-] k Hk. now apply elem_of_nil in Hk.
Qed.

(** [enStack] depends on the schedule through the orders it is given. *)
Lemma enStack_ext sch1 sch2 fuel t l seen :
  (∀ t ks, sch1 t ks = sch2 t ks) ->
  enStack sch1 fuel t l seen = enStack sch2 fuel t l seen.
Proof.
  intros E. revert t seen. induction fuel as [|fuel IH]; intros t seen; [done|].
  rewrite !enStack_S. unfold chosen. rewrite !E.
  destruct (match List.find _ _ with Some _ => _ | None => _ end); [|done].
  destruct (decide _); [done|]. now rewrite IH.
Qed.

(** A loop whose body, where it does not stop, leaves the state alone. *)
Lemma for_each_unchanged {A S : Type} (f : S -> A -> option S) xs s s' :
  (∀ x s1 s2, x ∈ xs -> f s1 x = Some s2 -> s2 = s1) ->
  for_each f xs s = Some s' -> s' = s.
Proof.
  revert s. induction xs as [|x xs IH]; intros s Hf; simpl.
  - now intros [= <-].
  - destruct (f s x) as [s1|] eqn:E; simpl; [|done].
    assert (s1 = s) as -> by (apply (Hf x); [left|done]).
    apply IH. intros y s2 s3 Hy. apply Hf. now right.
Qed.

(** ** Deciding the hypotheses on concrete inputs *)

Lemma symmetric_keys al :
  symmetric al ↔
  Forall (fun A => Forall (fun B => A ∈ neighbors al B) (neighbors al A)) (keys al).
Proof.
  rewrite list.Forall_forall. split.
  - intros S A _. apply list.Forall_forall. intros B HB.
    apply elem_of_neighbors, S, elem_of_neighbors. exact HB.
  - intros H. assert (Hd : ∀ A B, neighbor al A B -> neighbor al B A).
    { intros A B HAB. apply elem_of_neighbors.
      assert (HA : A ∈ keys al).
      { apply elem_of_keys. destruct HAB as (v & -> & _). now eexists. }
      specialize (H A HA). rewrite list.Forall_forall in H. apply H.
      now apply elem_of_neighbors. }
    intros A B. split; apply Hd.
Qed.

Global Instance symmetric_dec al : Decision (symmetric al).
Proof.
  refine (cast_if (decide (Forall (fun A => Forall (fun B => A ∈ neighbors al B)
                                      (neighbors al A)) (keys al))));
    now rewrite symmetric_keys.
Defined.

Lemma located_keys KNN ps al :
  located KNN ps al ↔
  Forall (fun k => point_xy <$> (nearest KNN k ≫= (ps !!.)) = Some k) (keys al).
Proof.
  rewrite list.Forall_forall. split.
  - intros L k Hk. apply elem_of_keys in Hk.
    destruct (L k Hk) as (i & p & -> & Hp & <-). simpl. now rewrite Hp.
  - intros H k Hk. apply elem_of_keys, H in Hk.
    destruct (nearest KNN k) as [i|]; [|discriminate Hk]. simpl in Hk.
    destruct (ps !! i) as [p|] eqn:Hp; [|discriminate Hk].
    exists i, p. repeat split; [done|]. now injection Hk.
Qed.

Global Instance located_dec KNN ps al : Decision (located KNN ps al).
Proof.
  refine (cast_if (decide (Forall
            (fun k => point_xy <$> (nearest KNN k ≫= (ps !!.)) = Some k)
            (keys al))));
    now rewrite located_keys.
Defined.

Lemma rotate_perm {A} n (l : list A) : rotate n l ≡ₚ l.
Proof.
  unfold rotate. rewrite Permutation_app_comm. now rewrite take_drop.
Qed.

Lemma in_order_fair : fair in_order.
Proof. intros t ks. reflexivity. Qed.

Lemma rotating_fair : fair rotating.
Proof. intros t ks. apply rotate_perm. Qed.

Lemma stalling_fair : fair stalling.
Proof. intros t ks. apply rotate_perm. Qed.

Lemma cut_perm j pal : cut j pal ≡ₚ pal.
Proof. apply rotate_perm. Qed.

(** ** What one visit and a whole run write *)

Lemma last_write_app j ws1 ws2 :
  last_write j (ws1 ++ ws2) =
  match last_write j ws2 with Some c => Some c | None => last_write j ws1 end.
Proof.
  unfold last_write. rewrite list.filter_app, list.last_app.
  now destruct (list.last (filter _ ws2)).
Qed.

Lemma filter_visit i j (cs : list RGBA) :
  filter (fun w : nat * RGBA => w.1 = j) (map (pair i) cs) =
  if decide (i = j) then map (pair i) cs else [].
Proof.
  induction cs as [|c cs IH]; simpl; [now case_decide|].
  rewrite filter_cons, IH. simpl. now case_decide.
Qed.

Lemma last_write_visit i j cs :
  last_write j (map (pair i) cs) = if decide (i = j) then list.last cs else None.
Proof.
  unfold last_write. rewrite filter_visit. case_decide; [|done].
  change (map (pair i) cs) with (pair i <$> cs).
  rewrite fmap_last. now destruct (list.last cs).
Qed.

Section Writes.

Variable KNN : list float -> nat -> list nat.
Variable shuffle : nat -> list RGBA -> list RGBA.
Hypothesis Hshuf : ∀ j l, shuffle j l ≡ₚ l.

(** A site whose coordinates are no key of the adjacency list is left
    alone by a visit. *)
Lemma colorSite_frame al st k st' i p :
  located KNN (pts st) al -> is_Some (al !! k) ->
  colorSite KNN shuffle al st k = Some st' ->
  pts st !! i = Some p -> al !! point_xy p = None ->
  pts st' !! i = Some p ∧ vec <$> pts st' = vec <$> pts st ∧
  palette st' ≡ₚ palette st ∧
  (∀ c, (i, c) ∈ writes st' -> (i, c) ∈ writes st).
Proof.
  intros L Hk H Hp Hnone.
  destruct (colorSite_inv _ _ _ _ _ _ H) as (j & q & seen & Hj & Hq & Hs).
  rewrite (colorSite_spec _ _ _ _ _ _ _ _ Hj Hq Hs) in H. injection H as <-.
  simpl. destruct (L k Hk) as (j' & q' & Hj' & Hq' & Hxy).
  assert (j' = j) as -> by congruence. assert (q' = q) as -> by congruence.
  assert (Hne : j ≠ i).
  { intros ->. assert (q = p) as -> by congruence.
    rewrite Hxy in Hnone. rewrite Hnone in Hk. now destruct Hk. }
  split; [|split; [|split]].
  - now rewrite list_lookup_insert_ne.
  - rewrite list_fmap_insert. simpl. apply list_insert_id.
    now rewrite list_lookup_fmap, Hq.
  - apply Hshuf.
  - intros c [Hc|Hc]%elem_of_app; [done|].
    apply list_elem_of_fmap in Hc as (c' & [= -> ->] & _). done.
Qed.

End Writes.

(** * The claims *)

(** ** Adjacency *)

(** C7. The adjacency list is symmetric after every step of its
    construction, hence also at its end: whatever number [n] of candidate
    points [main] has worked through, [B] is a neighbour of [A] exactly
    when [A] is one of [B]. ([link] is the only writer, and nothing reads
    the list between its two calls of [add].) *)
Theorem adjacency_symmetric KNN sites n al :
  for_each (record KNN sites) (take n (all_candidates sites)) ∅ = Some al ->
  symmetric al.
Proof.
  apply (for_each_invariant symmetric).
  - intros s x s' _ Hs Hx. exact (record_symmetric KNN sites s x s' Hs Hx).
  - exact symmetric_empty.
Qed.

Lemma adjacency_symmetric_witness :
  symmetric (link ∅ (site 0 0) (site 0 10)).
Proof.
  apply (adjacency_symmetric (scanKNN [site 0 0; site 0 10])
           [site 0 0; site 0 10] 1).
  by_computation.
Defined.

(** C6 fails on the bisector of (0,0) and (2,10), the line 2x + 10y = 52:
    |b| is the larger coefficient, and [drawNear] still goes through
    [maxX + maxY] candidates, the last [maxY] of them sampled along y. *)
Lemma sampled_on_one_axis_fails :
  ¬ sampled_on_one_axis (biscector (site 0 0) (site 2 10)).
Proof.
  unfold sampled_on_one_axis.
  set (l := biscector (site 0 0) (site 2 10)).
  assert (T : (abs (la l) <? abs (lb l)) = true) by reflexivity.
  rewrite T. intros E. apply (f_equal length) in E.
  rewrite length_candidates, length_map, length_seq in E.
  unfold maxY in E. lia.
Qed.

(** C6, amended. [drawNear] samples every line along both axes, whatever
    its coefficients: it works through one candidate for every integer x of
    [0, maxX), then one for every integer y of [0, maxY). *)
Theorem drawNear_samples_both_axes KNN sites l al :
  drawNear KNN sites l al =
  for_each (record KNN sites)
    (map (fun x => [float64_of_int x;
                    - (la l / lb l) * float64_of_int x + lc l / lb l])
         (seq 0 maxX) ++
     map (fun y => [- (lb l / la l) * float64_of_int y + lc l / la l;
                    float64_of_int y])
         (seq 0 maxY)) al
  ∧ length (candidates l) = (maxX + maxY)%nat.
Proof.
  split; [|apply length_candidates].
  rewrite drawNear_candidates. reflexivity.
Qed.

(** C9 fails for the site (3,4) taken twice: the line is (0,-0,0), the
    quotient a/b that every sample needs is 0/-0 = NaN, and the sampling
    is not skipped: the tree is asked about the first candidate [0, NaN]
    (a tree without sites stops [drawNear] there). *)
Lemma degenerate_line_is_sampled :
  biscector (site 3 4) (site 3 4) = Line 0 (-0) 0 ∧
  la (Line 0 (-0) 0) / lb (Line 0 (-0) 0) = nan ∧
  head (candidates (Line 0 (-0) 0)) = Some [0; nan] ∧
  drawNear noKNN [site 3 4] (Line 0 (-0) 0) ∅ = None.
Proof. repeat split. Qed.

Lemma candidates_nan l : la l = 0 -> lb l = -0 -> candidates l = nan_candidates.
Proof.
  intros Ha Hb. unfold candidates, nan_candidates.
  f_equal; apply map_ext; intros i;
    [now apply sample_x_degenerate | now apply sample_y_degenerate].
Qed.

(** Whether [record] stops depends on the answer of the tree alone. *)
Lemma record_stops_anywhere KNN sites al al' n :
  record KNN sites al n = None -> record KNN sites al' n = None.
Proof.
  unfold record. destruct (KNN n 2%nat) as [|i0 [|i1 r]]; try done.
  destruct (sites !! i0) as [n0|]; simpl; [|done].
  destruct (sites !! i1) as [n1|]; simpl; [|done].
  now destruct (_ <? _).
Qed.

Lemma for_each_stops {A S : Type} (f : S -> A -> option S) xs x s :
  x ∈ xs -> (∀ s', f s' x = None) -> for_each f xs s = None.
Proof.
  intros Hx Hf. revert s. induction xs as [|y xs IH]; intros s.
  - now apply elem_of_nil in Hx.
  - simpl. apply elem_of_cons in Hx as [<-|Hx]; [now rewrite Hf|].
    destruct (f s y); simpl; [now apply IH|done].
Qed.

Lemma for_each_fixed {A S : Type} (f : S -> A -> option S) xs s :
  (∀ x, x ∈ xs -> f s x = Some s) -> for_each f xs s = Some s.
Proof.
  induction xs as [|y xs IH]; intros Hf; simpl; [done|].
  rewrite Hf by left. simpl. apply IH. intros x Hx. apply Hf. now right.
Qed.

(** The exhaustive tree over two sites answers every query with both. *)
Lemma record_scan_two a b al n :
  is_Some (record (scanKNN [a; b]) [a; b] al n).
Proof.
  unfold record, scanKNN. simpl. destruct (_ <=? _); simpl;
    destruct (_ <? _); eauto.
Qed.

(** C9, amended. When the two end points of a bisector coincide (at finite
    coordinates), the coefficients a and b are 0 and -0, and [drawNear]
    does not skip the line: it divides by the zero coefficient for each of
    its [maxX + maxY] candidates, which gives every candidate a NaN
    coordinate, and sends every one of them to the tree, so that a single
    query which the tree does not answer with two sites stops [drawNear].
    When the tree answers them all, [drawNear] returns and has recorded no
    edge, since no distance to such a candidate compares below 1. *)
Theorem drawNear_degenerate KNN sites p x y al :
  vec p = [x; y] -> finite64 x = true -> finite64 y = true ->
  la (biscector p p) = 0 ∧ lb (biscector p p) = -0 ∧
  length (candidates (biscector p p)) = (maxX + maxY)%nat ∧
  (∀ n, n ∈ candidates (biscector p p) ->
        ∃ a b, n = [a; b] ∧ (a = nan ∨ b = nan)) ∧
  drawNear KNN sites (biscector p p) al
    = for_each (record KNN sites) nan_candidates al ∧
  (∀ n, n ∈ nan_candidates -> record KNN sites al n = None ->
        drawNear KNN sites (biscector p p) al = None) ∧
  ((∀ n, n ∈ nan_candidates -> is_Some (record KNN sites al n)) ->
   drawNear KNN sites (biscector p p) al = Some al) ∧
  (∀ al', drawNear KNN sites (biscector p p) al = Some al' -> al' = al).
Proof.
  intros Hv Fx Fy. destruct (biscector_self p x y Hv Fx Fy) as [Ha Hb].
  pose proof (candidates_nan _ Ha Hb) as Hc.
  split; [exact Ha|]. split; [exact Hb|].
  split; [apply length_candidates|]. split.
  { intros n Hn. exact (candidates_degenerate _ n Ha Hb Hn). }
  rewrite drawNear_candidates, Hc. split; [reflexivity|]. split; [|split].
  - intros n Hn Hr. apply (for_each_stops _ _ n); [exact Hn|].
    intros s'. exact (record_stops_anywhere KNN sites al s' n Hr).
  - intros Hall. apply for_each_fixed. intros n Hn.
    destruct (Hall n Hn) as [al' Hr]. rewrite Hr. f_equal.
    rewrite <- Hc in Hn.
    destruct (candidates_degenerate _ n Ha Hb Hn) as (a & b & -> & Hab).
    exact (record_nan KNN sites al a b al' Hab Hr).
  - intros al' H. eapply for_each_unchanged; [|exact H]. intros n s1 s2 Hn Hr.
    rewrite <- Hc in Hn.
    destruct (candidates_degenerate _ n Ha Hb Hn) as (a & b & -> & Hab).
    exact (record_nan KNN sites s1 a b s2 Hab Hr).
Qed.

(** Two sites at (3,4): the tree answers every candidate, nothing is
    recorded. One site at (3,4): the tree has one site for the first
    candidate [0, NaN], and [drawNear] stops there. *)
Lemma drawNear_degenerate_witness :
  la (biscector (site 3 4) (site 3 4)) = 0 ∧
  lb (biscector (site 3 4) (site 3 4)) = -0 ∧
  head nan_candidates = Some [0; nan] ∧
  drawNear (scanKNN [site 3 4; site 3 4]) [site 3 4; site 3 4]
    (biscector (site 3 4) (site 3 4)) ∅ = Some ∅ ∧
  drawNear (scanKNN [site 3 4]) [site 3 4]
    (biscector (site 3 4) (site 3 4)) ∅ = None.
Proof.
  destruct (drawNear_degenerate (scanKNN [site 3 4; site 3 4])
              [site 3 4; site 3 4] (site 3 4) 3 4 ∅)
    as (Ha & Hb & _ & _ & _ & _ & Htotal & _); [reflexivity..|].
  destruct (drawNear_degenerate (scanKNN [site 3 4]) [site 3 4] (site 3 4) 3 4 ∅)
    as (_ & _ & _ & _ & _ & Hstop & _ & _); [reflexivity..|].
  split; [exact Ha|]. split; [exact Hb|]. split; [reflexivity|]. split.
  - apply Htotal. intros n _. apply record_scan_two.
  - apply (Hstop [0; nan]); [|reflexivity].
    unfold nan_candidates. apply elem_of_app. left.
    apply list_elem_of_In, in_map_iff. exists 0%nat. split; [reflexivity|].
    apply in_seq. unfold maxX. lia.
Defined.

(** ** The colourer *)

(** C5 fails at the first visit of the run on two linked sites: the only
    neighbour is still black, the shuffled palette starts with (190,83,28),
    and the site ends with (155,17,30), the last colour of that palette. *)
Lemma first_free_not_taken :
  ¬ assigns_first_free (scanKNN (row 2)) cut (clique (row 2)) (init (row 2))
      (XY 0 0).
Proof.
  intros H.
  specialize (H 0%nat (site 0 0) [black]
    (State [Point [0; 0] (mkRGBA 155 17 30 255); site 1 0]
           (cut 0 colors) 1
           (map (pair 0%nat) (cut 0 colors)))).
  assert (E : Some (mkRGBA 155 17 30 255) = Some (mkRGBA 190 83 28 255));
    [|discriminate E].
  apply H; by_computation.
Qed.

(** C5, amended. A visit gives the site the last colour of the shuffled
    palette that is not among the colours of the sites of its neighbours
    (all of them, coloured already or not), and leaves the site as it is
    when there is no such colour. *)
Theorem colorSite_takes_last_free KNN shuffle al st k i p seen :
  nearest KNN k = Some i -> pts st !! i = Some p ->
  seen_colors KNN al (pts st) p = Some seen ->
  ∃ st', colorSite KNN shuffle al st k = Some st' ∧
         palette st' = shuffle (shuffles st) (palette st) ∧
         color <$> pts st' !! i =
           Some (default (color p)
                   (list.last (filter (.∉ seen) (palette st')))).
Proof.
  intros Hi Hp Hs. eexists. split; [exact (colorSite_spec _ _ _ _ _ _ _ _ Hi Hp Hs)|].
  simpl. split; [done|].
  rewrite list_lookup_insert_eq; [done|]. now apply lookup_lt_Some in Hp.
Qed.

Lemma colorSite_takes_last_free_witness :
  ∃ st', colorSite (scanKNN (row 2)) cut (clique (row 2)) (init (row 2)) (XY 0 0)
           = Some st' ∧
         palette st' = cut 0 colors ∧
         color <$> pts st' !! 0%nat =
           Some (default black
                   (list.last (filter (.∉ [black]) (palette st')))).
Proof.
  apply (colorSite_takes_last_free (scanKNN (row 2)) cut (clique (row 2))
           (init (row 2)) (XY 0 0) 0 (site 0 0) [black]); by_computation.
Defined.

(** C8 fails on the run on two linked sites: it ends, and the first site
    has been written six times, the second one five times. *)
Lemma sites_written_more_than_once :
  ∃ st', colorPoints (scanKNN (row 2)) cut in_order 2 (clique (row 2))
           (init (row 2)) = Some st' ∧
         length (filter (fun w => w.1 = 0%nat) (writes st')) = 6%nat ∧
         ¬ written_once (row 2) (writes st').
Proof.
  eexists. split; [vm_compute; reflexivity|]. split; [reflexivity|].
  intros H. specialize (H 0%nat). vm_compute in H.
  assert (6 = 1)%nat by (apply H; lia). lia.
Qed.

Section Visits.

Variable KNN : list float -> nat -> list nat.
Variable shuffle : nat -> list RGBA -> list RGBA.
Hypothesis Hshuf : ∀ j l, shuffle j l ≡ₚ l.

(** The writes of the loop of [colorPoints], visit by visit: the [n]-th
    visit starts in the state [s] that the loop has reached after [n]
    keys, goes to the site found for its key, and writes it once for every
    colour of the palette, as shuffled at that visit, that is not among
    the colours [seen] of the neighbours in [s], in the order of the
    shuffled palette. *)
Lemma for_each_visits al ks st st' :
  for_each (colorSite KNN shuffle al) ks st = Some st' ->
  ∃ visits : list (nat * list RGBA),
    length visits = length ks ∧
    (∀ n k, ks !! n = Some k ->
       ∃ s i p seen,
         for_each (colorSite KNN shuffle al) (take n ks) st = Some s ∧
         nearest KNN k = Some i ∧ pts s !! i = Some p ∧
         seen_colors KNN al (pts s) p = Some seen ∧
         visits !! n =
           Some (i, filter (.∉ seen) (shuffle (shuffles s) (palette s))) ∧
         (length (filter (.∉ seen) (shuffle (shuffles s) (palette s)))
          <= length (palette st))%nat) ∧
    writes st' = writes st ++ flat_map (fun v => map (pair v.1) v.2) visits ∧
    ∀ j q, pts st !! j = Some q ->
           pts st' !! j =
           Some (Point (vec q)
                   (default (color q)
                      (last_write j
                         (flat_map (fun v => map (pair v.1) v.2) visits)))).
Proof.
  revert st. induction ks as [|k ks IH]; intros st; simpl.
  - intros [= <-]. exists []. split; [done|]. split; [intros n k Hk; discriminate Hk|].
    split; [now rewrite app_nil_r|].
    intros j q Hq. rewrite Hq. now destruct q.
  - destruct (colorSite KNN shuffle al st k) as [st1|] eqn:E; simpl; [|done].
    intros H.
    destruct (colorSite_inv _ _ _ _ _ _ E) as (i & p & seen & Hi & Hp & Hs).
    pose proof E as E1.
    rewrite (colorSite_spec _ _ _ _ _ _ _ _ Hi Hp Hs) in E1. injection E1 as E1.
    set (free := filter (.∉ seen) (shuffle (shuffles st) (palette st))) in *.
    assert (Hpal : palette st1 ≡ₚ palette st) by (rewrite <- E1; apply Hshuf).
    assert (Hw : writes st1 = writes st ++ map (pair i) free) by now rewrite <- E1.
    assert (Hc : ∀ j q, pts st !! j = Some q ->
              pts st1 !! j =
              Some (Point (vec q)
                      (default (color q) (last_write j (map (pair i) free))))).
    { intros j q Hq. rewrite <- E1. simpl. rewrite last_write_visit.
      case_decide as Ej.
      - subst j. rewrite list_lookup_insert_eq by now apply lookup_lt_Some in Hp.
        congruence.
      - rewrite list_lookup_insert_ne by done. rewrite Hq. now destruct q. }
    destruct (IH _ H) as (visits & Hlen & Hn & Hw' & Hc').
    exists ((i, free) :: visits). split; [simpl; now rewrite Hlen|].
    split; [|split].
    + intros [|n] k' Hk'.
      * injection Hk' as <-. exists st, i, p, seen. repeat split; try done.
        unfold free.
        rewrite <- (Permutation_length (Hshuf (shuffles st) (palette st))).
        apply length_filter.
      * destruct (Hn n k' Hk') as (s & i' & p' & seen' & Hrun & Hi' & Hp' & Hs' & Hv & Hl).
        exists s, i', p', seen'. repeat split; try done.
        -- simpl. now rewrite E.
        -- now rewrite <- (Permutation_length Hpal).
    + rewrite Hw', Hw. simpl. now rewrite <- app_assoc.
    + intros j q Hq. rewrite (Hc' j _ (Hc j q Hq)). simpl.
      rewrite last_write_app.
      now destruct (last_write j (flat_map _ visits)).
Qed.

End Visits.

(** C8, amended. [colorPoints] visits the sites found for the entries of
    the elimination order, last entry first, and at each visit writes the
    colour of that site once for every colour of the shuffled palette that
    no neighbour shows at that moment: from no write at all to as many as
    the palette has colours. Those are all the writes of colours: every
    site ends with the colour of the last write that went to it, or with
    the colour it had when none did. *)
Theorem colorPoints_writes KNN shuffle sch fuel al st st' :
  (∀ j l, shuffle j l ≡ₚ l) ->
  colorPoints KNN shuffle sch fuel al st = Some st' ->
  ∃ stack (visits : list (nat * list RGBA)),
    enStack sch fuel 0 al ∅ = Some stack ∧
    length visits = length stack ∧
    (∀ n k, rev stack !! n = Some k ->
       ∃ s i p seen,
         for_each (colorSite KNN shuffle al) (take n (rev stack)) st = Some s ∧
         nearest KNN k = Some i ∧ pts s !! i = Some p ∧
         seen_colors KNN al (pts s) p = Some seen ∧
         visits !! n =
           Some (i, filter (.∉ seen) (shuffle (shuffles s) (palette s))) ∧
         (length (filter (.∉ seen) (shuffle (shuffles s) (palette s)))
          <= length (palette st))%nat) ∧
    writes st' = writes st ++ flat_map (fun v => map (pair v.1) v.2) visits ∧
    ∀ j q, pts st !! j = Some q ->
           pts st' !! j =
           Some (Point (vec q)
                   (default (color q)
                      (last_write j
                         (flat_map (fun v => map (pair v.1) v.2) visits)))).
Proof.
  intros Hshuf. unfold colorPoints.
  destruct (enStack sch fuel 0 al ∅) as [stack|]; [|discriminate].
  simpl. intros H. exists stack.
  destruct (for_each_visits KNN shuffle Hshuf al _ _ _ H)
    as (visits & Hlen & Hn & Hw).
  exists visits. rewrite length_rev in Hlen. done.
Qed.

(** The run on two linked sites: the first visit, to the site (0,0), finds
    its neighbour black and writes all six colours; the second one, to the
    site (1,0), finds the neighbour with the last of them and writes the
    five others. *)
Lemma colorPoints_writes_witness :
  ∃ stack (visits : list (nat * list RGBA)),
    enStack in_order 2 0 (clique (row 2)) ∅ = Some stack ∧
    length visits = length stack ∧
    (∀ n k, rev stack !! n = Some k ->
       ∃ s i p seen,
         for_each (colorSite (scanKNN (row 2)) cut (clique (row 2)))
           (take n (rev stack)) (init (row 2)) = Some s ∧
         nearest (scanKNN (row 2)) k = Some i ∧ pts s !! i = Some p ∧
         seen_colors (scanKNN (row 2)) (clique (row 2)) (pts s) p = Some seen ∧
         visits !! n =
           Some (i, filter (.∉ seen) (cut (shuffles s) (palette s))) ∧
         (length (filter (.∉ seen) (cut (shuffles s) (palette s)))
          <= length (palette (init (row 2))))%nat) ∧
    writes (State [Point [0; 0] (mkRGBA 155 17 30 255);
                   Point [1; 0] (mkRGBA 241 196 0 255)]
                  (cut 1 (cut 0 colors)) 2
                  (map (pair 0%nat) (cut 0 colors) ++
                   map (pair 1%nat) (take 3 (cut 1 (cut 0 colors))) ++
                   map (pair 1%nat) (drop 4 (cut 1 (cut 0 colors)))))
    = writes (init (row 2)) ++ flat_map (fun v => map (pair v.1) v.2) visits ∧
    ∀ j q, pts (init (row 2)) !! j = Some q ->
           [Point [0; 0] (mkRGBA 155 17 30 255);
            Point [1; 0] (mkRGBA 241 196 0 255)] !! j =
           Some (Point (vec q)
                   (default (color q)
                      (last_write j
                         (flat_map (fun v => map (pair v.1) v.2) visits)))).
Proof.
  apply (colorPoints_writes (scanKNN (row 2)) cut in_order 2 (clique (row 2))
           (init (row 2))).
  - exact cut_perm.
  - by_computation.
Defined.

Lemma elem_of_rev {A} (x : A) l : x ∈ rev l ↔ x ∈ l.
Proof. rewrite !list_elem_of_In. symmetry. apply in_rev. Qed.

(** C10. A site whose coordinates are no key of the adjacency list is not
    visited by [colorPoints]: after the run it has the colour [main] made
    it with, RGBA(0,0,0,255), no write of the run went to it, and that
    colour is none of the palette. *)
Theorem unlinked_site_stays_black KNN shuffle sch fuel al sites st' i p :
  fair sch -> (∀ j l, shuffle j l ≡ₚ l) -> located KNN sites al ->
  colorPoints KNN shuffle sch fuel al (init sites) = Some st' ->
  sites !! i = Some p -> al !! point_xy p = None -> color p = black ->
  pts st' !! i = Some p ∧ color p = mkRGBA 0 0 0 255 ∧
  (∀ c, (i, c) ∉ writes st') ∧
  (black ∉ colors) ∧ (black ∉ palette st').
Proof.
  intros F Hshuf L H Hp Hnone Hblack. unfold colorPoints in H.
  destruct (enStack sch fuel 0 al ∅) as [stack|] eqn:Es; [|discriminate H].
  simpl in H.
  assert (Hk : ∀ k, k ∈ rev stack -> is_Some (al !! k)).
  { intros k Hk. rewrite elem_of_rev in Hk. exact (enStack_keys _ _ _ _ _ _ F Es k Hk). }
  assert (Hnb : black ∉ colors) by by_computation.
  pose (P := fun st : state =>
          pts st !! i = Some p ∧ vec <$> pts st = vec <$> sites ∧
          palette st ≡ₚ colors ∧ ∀ c, (i, c) ∉ writes st).
  assert (HP : P st').
  { apply (for_each_invariant P (colorSite KNN shuffle al) (rev stack))
      with (s := init sites); [|split; [done|split; [done|split; [done|]]]|done].
    - intros s k s' Hin (Hs1 & Hs2 & Hs3 & Hs4) Hstep.
      destruct (colorSite_frame KNN shuffle Hshuf al s k s' i p)
        as (H1 & H2 & H3 & H4); try done.
      + eapply located_same_vec; [exact Hs2|exact L].
      + now apply Hk.
      + split; [done|]. split; [congruence|]. split; [now rewrite H3|].
        intros c Hc. exact (Hs4 c (H4 c Hc)).
    - intros c Hc. now apply elem_of_nil in Hc. }
  destruct HP as (H1 & _ & H3 & H4).
  split; [done|]. split; [now rewrite Hblack|]. split; [done|].
  split; [done|]. now rewrite H3.
Qed.

(** The sites of a run with an unlinked site: two linked ones and a third. *)
Lemma unlinked_site_stays_black_witness :
  ∃ st', colorPoints (scanKNN (row 3)) cut in_order 2 (clique (row 2))
           (init (row 3)) = Some st' ∧
         pts st' !! 2%nat = Some (site 2 0) ∧
         (∀ c, (2%nat, c) ∉ writes st') ∧ (black ∉ palette st').
Proof.
  destruct (colorPoints (scanKNN (row 3)) cut in_order 2 (clique (row 2))
              (init (row 3))) as [st'|] eqn:E;
    [|vm_compute in E; discriminate E].
  exists st'. split; [reflexivity|].
  destruct (unlinked_site_stays_black (scanKNN (row 3)) cut in_order 2
              (clique (row 2)) (row 3) st' 2 (site 2 0))
    as (H1 & _ & H3 & _ & H5);
    [exact in_order_fair | exact cut_perm | by_computation | exact E
    | reflexivity | by_computation | reflexivity |].
  now repeat split.
Defined.

(** The run of [main]: black sites and the palette as declared. *)
Lemma coloured_main KNN shuffle sch fuel al sites stack :
  symmetric al -> located KNN sites al ->
  Forall (fun p => color p = black) sites ->
  (∀ j l, shuffle j l ≡ₚ l) ->
  enStack sch fuel 0 al ∅ = Some stack ->
  peeled al stack -> Forall (fun k => is_Some (al !! k)) stack ->
  ∃ st', colorPoints KNN shuffle sch fuel al (init sites) = Some st' ∧
         coloured KNN al (init sites) stack st'.
Proof.
  intros Hsym Hloc Hblack Hshuf Hstack Hpeel Hdom.
  unfold colorPoints. rewrite Hstack. simpl.
  apply (coloured_run KNN shuffle al (init sites)); try done.
  - intros p Hp. rewrite list.Forall_forall in Hblack.
    rewrite (Hblack p Hp). by_computation.
  - by_computation.
  - now apply list.Forall_forall.
Qed.

(** C1 fails on eight sites that are all linked with each other, under the
    schedule [rotating]: the run ends, and the linked sites (2,0) and (5,0),
    taken by the second loop of [enStack], both stay black. *)
Lemma linked_sites_share_a_colour :
  ∃ st', colorPoints (scanKNN (row 8)) cut rotating 8 (clique (row 8))
           (init (row 8)) = Some st' ∧
         neighbor (clique (row 8)) (XY 2 0) (XY 5 0) ∧
         color_at (scanKNN (row 8)) st' (XY 2 0) = Some black ∧
         color_at (scanKNN (row 8)) st' (XY 5 0) = Some black ∧
         ¬ properly_coloured (scanKNN (row 8)) (clique (row 8)) st'.
Proof.
  destruct (colorPoints (scanKNN (row 8)) cut rotating 8 (clique (row 8))
              (init (row 8))) as [st'|] eqn:E;
    [|vm_compute in E; discriminate E].
  exists st'. split; [reflexivity|].
  assert (N : neighbor (clique (row 8)) (XY 2 0) (XY 5 0)).
  { apply elem_of_neighbors. by_computation. }
  assert (E2 : color_at (scanKNN (row 8)) st' (XY 2 0) = Some black).
  { vm_compute in E. injection E as <-. vm_compute. reflexivity. }
  assert (E5 : color_at (scanKNN (row 8)) st' (XY 5 0) = Some black).
  { vm_compute in E. injection E as <-. vm_compute. reflexivity. }
  split; [exact N|]. split; [exact E2|]. split; [exact E5|].
  intros P. apply (P _ _ N). rewrite E2, E5. reflexivity.
Qed.


Lemma shifted_fair : fair shifted.
Proof. intros t ks. apply rotate_perm. Qed.

(** C3 fails on seven sites that are all linked with each other: when the
    run comes to the site (2,0), which the second loop of [enStack] took,
    its six neighbours show the six colours of the palette; the visit
    returns all the same, the run ends, and the site is still black. *)
Lemma exhaustion_goes_unnoticed :
  ∃ st st',
    for_each (colorSite (scanKNN (row 7)) cut (clique (row 7)))
      [XY 3 0; XY 1 0; XY 6 0; XY 0 0; XY 4 0; XY 5 0] (init (row 7)) = Some st ∧
    ¬ exhaustion_is_fatal (scanKNN (row 7)) cut (clique (row 7)) st (XY 2 0) ∧
    colorPoints (scanKNN (row 7)) cut rotating 7 (clique (row 7)) (init (row 7))
      = Some st' ∧
    color_at (scanKNN (row 7)) st' (XY 2 0) = Some black.
Proof.
  destruct (for_each (colorSite (scanKNN (row 7)) cut (clique (row 7)))
      [XY 3 0; XY 1 0; XY 6 0; XY 0 0; XY 4 0; XY 5 0] (init (row 7)))
    as [st|] eqn:E; [|vm_compute in E; discriminate E].
  destruct (colorPoints (scanKNN (row 7)) cut rotating 7 (clique (row 7))
              (init (row 7))) as [st'|] eqn:E';
    [|vm_compute in E'; discriminate E'].
  exists st, st'. split; [reflexivity|].
  vm_compute in E. injection E as Est.
  vm_compute in E'. injection E' as <-.
  split; [|split; [reflexivity|vm_compute; reflexivity]].
  intros H.
  specialize (H 2%nat (site 2 0)
    [mkRGBA 155 17 30 255; mkRGBA 135 206 235 255; mkRGBA 89 49 95 255;
     mkRGBA 190 83 28 255; mkRGBA 241 196 0 255; mkRGBA 19 104 67 255]).
  assert (Ec : colorSite (scanKNN (row 7)) cut (clique (row 7)) st (XY 2 0) = None).
  { subst st. apply H; [by_computation..|].
    intros c Hc. revert c Hc. apply list.Forall_forall. by_computation. }
  subst st. vm_compute in Ec. discriminate Ec.
Qed.

(** A visit that finds every colour of the palette among the neighbours
    returns, and changes neither the site nor the list of writes. *)
Lemma colorSite_exhausted KNN shuffle al st k i p seen :
  (∀ j l, shuffle j l ≡ₚ l) ->
  nearest KNN k = Some i -> pts st !! i = Some p ->
  seen_colors KNN al (pts st) p = Some seen ->
  (∀ c, c ∈ palette st -> c ∈ seen) ->
  ∃ st', colorSite KNN shuffle al st k = Some st' ∧
         pts st' = pts st ∧ writes st' = writes st.
Proof.
  intros Hshuf Hi Hp Hs Hall. eexists.
  split; [exact (colorSite_spec _ _ _ _ _ _ _ _ Hi Hp Hs)|]. simpl.
  assert (E : filter (.∉ seen) (shuffle (shuffles st) (palette st)) = []).
  { destruct (filter _ _) as [|c r] eqn:E; [done|exfalso].
    assert (Hc : c ∈ c :: r) by left. rewrite <- E in Hc.
    apply list_elem_of_filter in Hc as [Hn Hc]. apply Hn, Hall.
    now rewrite <- (Hshuf (shuffles st) (palette st)). }
  rewrite E. simpl. split; [|apply app_nil_r].
  apply list_insert_id. rewrite Hp. now destruct p.
Qed.


(** ** Determinism *)

Lemma colorSite_ext KNN sh1 sh2 al st k :
  (∀ j l, sh1 j l = sh2 j l) ->
  colorSite KNN sh1 al st k = colorSite KNN sh2 al st k.
Proof. intros E. unfold colorSite. now rewrite E. Qed.

Lemma colorPoints_ext KNN sh1 sh2 sch1 sch2 fuel al st :
  (∀ t ks, sch1 t ks = sch2 t ks) -> (∀ j l, sh1 j l = sh2 j l) ->
  colorPoints KNN sh1 sch1 fuel al st = colorPoints KNN sh2 sch2 fuel al st.
Proof.
  intros Es Eh. unfold colorPoints. rewrite (enStack_ext sch1 sch2) by done.
  destruct (enStack sch2 fuel 0 al ∅) as [stack|]; [|done]. simpl.
  apply for_each_ext. intros s k. now apply colorSite_ext.
Qed.

(** C4 fails on the two sites (0,0) and (0,10): with the same shuffles, a
    run whose [range] statements take the canonical order and a run whose
    [range] statements start one key further end with different colours. *)
Lemma range_order_changes_the_run :
  ¬ seed_determines_run (scanKNN [site 0 0; site 0 10]) cut 2
      [site 0 0; site 0 10].
Proof.
  intros H. specialize (H in_order shifted in_order_fair shifted_fair).
  apply (f_equal (fmap (fun r => pts (snd r)))) in H.
  vm_compute in H. discriminate H.
Qed.

(** The adjacency graph of a run is the one the adjacency loop builds: no
    [range] statement and no shuffle has a part in it. *)
Lemma pipeline_graph KNN shuffle sch fuel sites al st :
  pipeline KNN shuffle sch fuel sites = Some (al, st) ->
  buildAdjacency KNN sites = Some al.
Proof.
  unfold pipeline. destruct (buildAdjacency KNN sites) as [al'|]; [|discriminate].
  simpl. destruct (colorPoints _ _ _ _ _ _); [|discriminate]. simpl. congruence.
Qed.

Lemma backwards_fair : fair backwards.
Proof.
  intros t ks. unfold backwards. destruct (Nat.ltb t 2); [done|].
  symmetry. apply Permutation_rev.
Qed.

(** Under a fair schedule a call of [enStack] takes no key only when the
    adjacency list has none. *)
Lemma chosen_None sch t l seen :
  fair sch -> chosen sch t l seen = None -> keys l = [].
Proof.
  intros F. unfold chosen. destruct (List.find _ _); [discriminate|].
  destruct (sch (2 * t + 1)%nat (keys l)) as [|k r] eqn:E; [|discriminate].
  intros _. apply Permutation_nil_r. rewrite <- E. symmetry. apply F.
Qed.

Lemma chosen_no_keys sch t l seen :
  fair sch -> keys l = [] -> chosen sch t l seen = None.
Proof.
  intros F E. unfold chosen.
  assert (Hk : ∀ n, sch n (keys l) = []).
  { intros n. apply Permutation_nil_r. rewrite (F n). now rewrite E. }
  now rewrite !Hk.
Qed.

(** A run whose calls take the keys that another run has taken returns the
    same order, whatever else its [range] statements do. *)
Lemma enStack_retraced sch1 sch2 l :
  fair sch1 -> fair sch2 ->
  ∀ fuel t seen out,
    enStack sch1 fuel t l seen = Some out ->
    (∀ n, (n < length out)%nat ->
          chosen sch2 (t + n) l
            (fold_left (fun seen k => <[k := true]> seen) (take n out) seen)
          = out !! n) ->
    enStack sch2 fuel t l seen = Some out.
Proof.
  intros F1 F2. induction fuel as [|fuel IH]; intros t seen out; [discriminate|].
  rewrite !enStack_S. destruct (chosen sch1 t l seen) as [k|] eqn:E1.
  - assert (Hhead : ∀ rest, out = k :: rest ->
              (∀ n, (n < length out)%nat ->
                 chosen sch2 (t + n) l
                   (fold_left (fun seen k => <[k := true]> seen) (take n out) seen)
                 = out !! n) ->
              chosen sch2 t l seen = Some k).
    { intros rest -> H. specialize (H 0%nat). rewrite Nat.add_0_r in H.
      apply H. simpl. lia. }
    destruct (decide _) as [Hsz|Hsz].
    + intros [= <-] H. now rewrite (Hhead [] eq_refl H), decide_True.
    + destruct (enStack sch1 fuel (S t) l _) as [rest|] eqn:Er; [|discriminate].
      simpl. intros [= <-] H. rewrite (Hhead rest eq_refl H), decide_False by done.
      rewrite (IH (S t) _ rest Er); [done|].
      intros n Hn. specialize (H (S n)). simpl in H.
      replace (t + S n)%nat with (S t + n)%nat in H by lia. apply H. lia.
  - intros [= <-] _.
    now rewrite (chosen_no_keys sch2 t l seen F2 (chosen_None sch1 t l seen F1 E1)).
Qed.

(** C4, amended. The adjacency graph is the same in any two runs on the
    same sites. The elimination order and the colours are not fixed by the
    seed: they depend on the orders in which the [range] statements of
    [enStack] visit the keys of the adjacency map, but only through the key
    that each call takes, the first key of its first [range] that passes
    the test or else the first key of its second [range]. A run whose
    calls take the keys that another run took, with the same shuffles,
    gives the same order and the same colours, however else its [range]
    statements differ. *)
Theorem run_determined_by_shuffles_and_keys_taken
    KNN sh1 sh2 sch1 sch2 fuel sites al stack :
  fair sch1 -> fair sch2 ->
  buildAdjacency KNN sites = Some al ->
  enStack sch1 fuel 0 al ∅ = Some stack ->
  (∀ n, (n < length stack)%nat ->
        chosen sch2 n al (seen_after (take n stack)) = stack !! n) ->
  (∀ j l, sh1 j l = sh2 j l) ->
  enStack sch2 fuel 0 al ∅ = Some stack ∧
  pipeline KNN sh2 sch2 fuel sites = pipeline KNN sh1 sch1 fuel sites ∧
  (∀ sh sch al' st',
     pipeline KNN sh sch fuel sites = Some (al', st') -> al' = al).
Proof.
  intros F1 F2 Hb Hs Hk Hsh.
  assert (Hs2 : enStack sch2 fuel 0 al ∅ = Some stack).
  { apply (enStack_retraced sch1 sch2 al F1 F2 fuel 0 ∅ stack Hs).
    intros n Hn. exact (Hk n Hn). }
  split; [exact Hs2|]. split.
  - unfold pipeline. rewrite Hb. simpl. unfold colorPoints. rewrite Hs, Hs2. simpl.
    f_equal. apply for_each_ext. intros s k. symmetry. now apply colorSite_ext.
  - intros sh sch al' st' H. apply pipeline_graph in H. congruence.
Qed.

(** The two sites (0,0) and (0,10): a run that goes backwards from its
    third [range] on takes the same keys as the canonical run, and ends
    with the same order and colours. *)
Lemma run_determined_by_shuffles_and_keys_taken_witness :
  backwards 2%nat [XY 0 0; XY 0 10] ≠ in_order 2%nat [XY 0 0; XY 0 10] ∧
  enStack backwards 2 0 (link ∅ (site 0 0) (site 0 10)) ∅
    = enStack in_order 2 0 (link ∅ (site 0 0) (site 0 10)) ∅ ∧
  pipeline (scanKNN [site 0 0; site 0 10]) cut backwards 2
    [site 0 0; site 0 10]
  = pipeline (scanKNN [site 0 0; site 0 10]) cut in_order 2
      [site 0 0; site 0 10] ∧
  (∀ sh sch al' st',
     pipeline (scanKNN [site 0 0; site 0 10]) sh sch 2 [site 0 0; site 0 10]
       = Some (al', st') -> al' = link ∅ (site 0 0) (site 0 10)).
Proof.
  destruct (enStack in_order 2 0 (link ∅ (site 0 0) (site 0 10)) ∅)
    as [stack|] eqn:E; [|vm_compute in E; discriminate E].
  destruct (run_determined_by_shuffles_and_keys_taken
              (scanKNN [site 0 0; site 0 10]) cut cut in_order backwards 2
              [site 0 0; site 0 10] (link ∅ (site 0 0) (site 0 10)) stack)
    as (H1 & H2 & H3).
  - exact in_order_fair.
  - exact backwards_fair.
  - exact two_sites_adjacency.
  - exact E.
  - vm_compute in E. injection E as <-. intros [|[|n]] Hn.
    + by_computation.
    + by_computation.
    + simpl in Hn. lia.
  - reflexivity.
  - split; [discriminate|]. split; [exact H1|]. split; [exact H2|exact H3].
Defined.

(** ** The second loop of [enStack] *)

(** On eight sites that are all linked with each other, a run whose
    [range] statements all take the canonical order never returns: the
    second loop takes the key (3,0) in the first call, and takes it again,
    seen as it is, in every call after. *)
Lemma enStack_in_order_stuck fuel t :
  enStack in_order fuel t (clique (row 8)) {[XY 3 0 := true]} = None.
Proof.
  revert t. induction fuel as [|fuel IH]; intros t; [reflexivity|].
  rewrite enStack_S.
  assert (E : chosen in_order t (clique (row 8)) {[XY 3 0 := true]}
              = Some (XY 3 0)).
  { unfold chosen, in_order. vm_compute. reflexivity. }
  rewrite E, insert_singleton_eq.
  rewrite decide_False; [now rewrite IH|].
  rewrite map_size_singleton. vm_compute. discriminate.
Qed.

Lemma enStack_in_order_diverges fuel :
  enStack in_order fuel 0 (clique (row 8)) ∅ = None.
Proof.
  destruct fuel as [|fuel]; [reflexivity|]. rewrite enStack_S.
  assert (E : chosen in_order 0 (clique (row 8)) ∅ = Some (XY 3 0)).
  { unfold chosen, in_order. vm_compute. reflexivity. }
  rewrite E, insert_empty.
  rewrite decide_False; [now rewrite enStack_in_order_stuck|].
  rewrite map_size_singleton. vm_compute. discriminate.
Qed.

(** C2 on eight sites that are all linked with each other. Under the fair
    schedule [stalling] the second loop of [enStack] takes the key (3,0)
    in the first call and, although it is seen, again in the second call:
    the order returned has nine entries for eight vertices and is no
    permutation of them. Under the fair schedule [in_order] the second loop
    takes that key in every call, and [enStack] does not return. *)
Theorem enStack_fallback_takes_seen_key :
  fair stalling ∧ fair in_order ∧
  size (clique (row 8)) = 8%nat ∧
  enStack stalling 9 0 (clique (row 8)) ∅ =
    Some [XY 3 0; XY 3 0; XY 2 0; XY 7 0; XY 5 0; XY 6 0; XY 4 0; XY 1 0; XY 0 0] ∧
  ¬ NoDup [XY 3 0; XY 3 0; XY 2 0; XY 7 0; XY 5 0; XY 6 0; XY 4 0; XY 1 0; XY 0 0] ∧
  ¬ ([XY 3 0; XY 3 0; XY 2 0; XY 7 0; XY 5 0; XY 6 0; XY 4 0; XY 1 0; XY 0 0]
       ≡ₚ keys (clique (row 8))) ∧
  ∀ fuel, enStack in_order fuel 0 (clique (row 8)) ∅ = None.
Proof.
  split; [exact stalling_fair|]. split; [exact in_order_fair|].
  split; [vm_compute; reflexivity|]. split; [vm_compute; reflexivity|].
  split; [|split].
  - intros H. apply list.NoDup_cons in H as [H _]. apply H. left.
  - intros H. apply Permutation_length in H. rewrite length_keys in H.
    vm_compute in H. discriminate H.
  - exact enStack_in_order_diverges.
Qed.

(** ** The first loop of [enStack] on graphs of small degeneracy *)

Lemma length_filter_impl {A} (P Q : A -> Prop)
    `{∀ x, Decision (P x)} `{∀ x, Decision (Q x)} (l : list A) :
  (∀ x, P x -> Q x) -> (length (filter P l) <= length (filter Q l))%nat.
Proof.
  intros HPQ. induction l as [|x l IH]; [done|].
  rewrite !filter_cons. destruct (decide (P x)) as [HP|HP].
  - rewrite decide_True by auto. simpl. lia.
  - destruct (decide (Q x)); simpl; lia.
Qed.

Lemma get_seen_marks l seen n :
  marks l seen -> get_seen seen n = false ↔ seen !! n = None.
Proof.
  intros M. unfold get_seen. destruct (seen !! n) as [b|] eqn:E; simpl.
  - destruct (M n b E) as [-> _]. split; discriminate.
  - done.
Qed.

Lemma marks_insert l seen k :
  marks l seen -> is_Some (l !! k) -> marks l (<[k := true]> seen).
Proof.
  intros M Hk k' b. rewrite lookup_insert. case_decide as E.
  - subst. now intros [= <-].
  - apply M.
Qed.

Lemma marks_dom l seen : marks l seen -> dom seen ⊆ dom l.
Proof.
  intros M k Hk. apply elem_of_dom in Hk as [b Hb]. apply elem_of_dom.
  exact (proj2 (M k b Hb)).
Qed.

(** With fewer marks than keys, some key is not marked. *)
Lemma marks_unseen l seen :
  marks l seen -> (size seen < size l)%nat ->
  ∃ k, is_Some (l !! k) ∧ k ∉ dom seen.
Proof.
  intros M Hlt.
  destruct (decide (Exists (.∉ dom seen) (keys l))) as [E|E].
  - apply list.Exists_exists in E as (k & Hk & Hn). exists k.
    split; [now apply elem_of_keys|done].
  - exfalso. apply not_Exists_Forall in E; [|apply _].
    rewrite list.Forall_forall in E.
    assert (Hsub : dom l ⊆ dom seen).
    { intros k Hk. apply elem_of_dom, elem_of_keys, E in Hk.
      simpl in Hk. now apply dec_stable in Hk. }
    apply subseteq_size in Hsub. rewrite !size_dom in Hsub. lia.
Qed.

(** The key that the first loop takes in a graph of small degeneracy. *)
Lemma chosen_low sch t l seen :
  fair sch -> degenerate l -> marks l seen -> (size seen < size l)%nat ->
  ∃ k v, chosen sch t l seen = Some k ∧ l !! k = Some v ∧
         seen !! k = None ∧ (deg seen v < 6)%nat.
Proof.
  intros F Dg M Hlt.
  destruct (Dg (dom seen) (marks_unseen l seen M Hlt)) as (k0 & v0 & Hk0 & Hn0 & Hd0).
  assert (Hlow0 : low l seen k0 = true).
  { unfold low. rewrite Hk0. apply andb_true_intro. split.
    - apply bool_decide_eq_true. unfold deg.
      eapply Nat.le_lt_trans; [|exact Hd0]. apply length_filter_impl.
      intros n Hn. apply (get_seen_marks l seen n M) in Hn.
      now apply not_elem_of_dom.
    - apply negb_true_iff, (get_seen_marks l seen k0 M).
      now apply not_elem_of_dom. }
  unfold chosen.
  destruct (List.find (low l seen) (sch (2 * t)%nat (keys l))) as [k|] eqn:E.
  - apply find_some in E as [_ E]. unfold low in E.
    destruct (l !! k) as [v|] eqn:Hk; [|discriminate E].
    apply andb_prop in E as [E1 E2]. exists k, v. repeat split; [done| |].
    + apply negb_true_iff in E2. now apply (get_seen_marks l seen k M).
    + now apply bool_decide_eq_true in E1.
  - exfalso. rewrite (find_none _ _ E k0) in Hlow0; [discriminate Hlow0|].
    apply list_elem_of_In. rewrite (F (2 * t)%nat). apply elem_of_keys.
    now rewrite Hk0.
Qed.

(** On a graph of degeneracy at most 5, under a fair schedule, [enStack]
    returns within as many calls as keys are not yet seen, and returns
    these keys, each once, in a peeled order. *)
Lemma enStack_peels sch l :
  fair sch -> degenerate l ->
  ∀ fuel t seen,
    marks l seen -> (size seen < size l)%nat ->
    (size l - size seen <= fuel)%nat ->
    ∃ out, enStack sch fuel t l seen = Some out ∧ NoDup out ∧
           (∀ k, k ∈ out ↔ is_Some (l !! k) ∧ seen !! k = None) ∧
           peeled l out.
Proof.
  intros F Dg. induction fuel as [|fuel IH]; intros t seen M Hlt Hfuel; [lia|].
  destruct (chosen_low sch t l seen F Dg M Hlt) as (k & v & Hc & Hk & Hs & Hd).
  rewrite enStack_S, Hc.
  assert (Hsize : size (<[k := true]> seen) = S (size seen))
    by now apply map_size_insert_None.
  assert (M' : marks l (<[k := true]> seen))
    by (apply marks_insert; [done|now rewrite Hk]).
  assert (Hle : (size (<[k := true]> seen) <= size l)%nat).
  { rewrite <- !size_dom. apply subseteq_size, marks_dom, M'. }
  assert (Hnbr : ∀ rest : list xy,
            (∀ k', k' ∈ rest -> seen !! k' = None) ->
            (length (filter (.∈ rest) (neighbors l k)) < 6)%nat).
  { intros rest Hr. eapply Nat.le_lt_trans; [|exact Hd].
    unfold neighbors, deg. rewrite Hk. simpl. apply length_filter_impl.
    intros n Hn. apply (get_seen_marks l seen n M). now apply Hr. }
  destruct (decide (size (<[k := true]> seen) = size l)) as [Heq|Hne].
  - exists [k]. split; [done|]. split; [apply NoDup_singleton|]. split.
    + intros k'. rewrite list_elem_of_singleton. split.
      * intros ->. now rewrite Hk, Hs.
      * intros [Hk' Hs']. destruct (decide (k' = k)) as [|Hkk]; [done|exfalso].
        assert (Hd' : dom (<[k := true]> seen) = dom l).
        { apply set_subseteq_size_eq; [now apply marks_dom|].
          rewrite !size_dom. lia. }
        apply elem_of_dom in Hk'. rewrite <- Hd' in Hk'.
        apply elem_of_dom in Hk'. rewrite lookup_insert_ne in Hk' by done.
        rewrite Hs' in Hk'. now destruct Hk'.
    + simpl. split; [|split; [apply not_elem_of_nil|done]].
      apply Hnbr. intros k' Hk'. now apply elem_of_nil in Hk'.
  - destruct (IH (S t) (<[k := true]> seen) M') as (rest & Hr & Hnd & Hin & Hp);
      [lia..|].
    rewrite Hr. simpl. exists (k :: rest). split; [done|].
    assert (Hnk : k ∉ rest).
    { intros Hin'. apply Hin in Hin' as [_ Hin']. now rewrite lookup_insert_eq in Hin'. }
    split; [now apply list.NoDup_cons|]. split.
    + intros k'. rewrite elem_of_cons, Hin. rewrite lookup_insert.
      destruct (decide (k = k')) as [<-|Hkk].
      * split; [intros _|now left]. now rewrite Hk, Hs.
      * split; [intros [->|H]; [done|exact H]|now right].
    + simpl. split; [|done]. apply Hnbr. intros k' Hk'.
      apply Hin in Hk' as [_ Hk']. rewrite lookup_insert in Hk'.
      now case_decide.
Qed.

(** The same for the call that [colorPoints] makes. *)
Lemma enStack_degenerate sch l fuel :
  fair sch -> degenerate l -> (size l <= fuel)%nat -> (0 < fuel)%nat ->
  ∃ out, enStack sch fuel 0 l ∅ = Some out ∧ NoDup out ∧
         (∀ k, k ∈ out ↔ is_Some (l !! k)) ∧ peeled l out.
Proof.
  intros F Dg Hfuel Hpos. destruct (decide (size l = 0%nat)) as [Hz|Hnz].
  - apply map_size_empty_iff in Hz. subst l. exists [].
    destruct fuel as [|fuel]; [lia|]. rewrite enStack_S.
    assert (E : chosen sch 0 ∅ ∅ = None).
    { unfold chosen. assert (Hk : ∀ n, sch n (keys (∅ : adjList)) = []).
      { intros n. apply Permutation_nil_r. rewrite (F n). unfold keys.
        now rewrite map_to_list_empty. }
      now rewrite !Hk. }
    rewrite E. split; [done|]. split; [constructor|]. split; [|done].
    intros k. rewrite lookup_empty. split; [intros H|intros [? H]];
      [now apply elem_of_nil in H|discriminate H].
  - destruct (enStack_peels sch l F Dg fuel 0 ∅) as (out & Hr & Hnd & Hin & Hp).
    + intros k b. now rewrite lookup_empty.
    + rewrite map_size_empty. lia.
    + rewrite map_size_empty. lia.
    + exists out. repeat split; try done.
      * intros Hk. now apply Hin in Hk as [Hk _].
      * intros Hk. apply Hin. split; [done|apply lookup_empty].
Qed.

(** A graph in which no site has 6 neighbours is of small degeneracy. *)
Lemma degenerate_small_degree l :
  map_Forall (fun _ v => (size (v : gmap xy bool) < 6)%nat) l -> degenerate l.
Proof.
  intros H D (k & [v Hk] & Hn). exists k, v. repeat split; [done..|].
  eapply Nat.le_lt_trans; [apply length_filter|].
  rewrite length_keys. exact (H k v Hk).
Qed.

(** ** The colouring of graphs of small degeneracy *)

(** The run of [main] on a symmetric graph of degeneracy at most 5,
    whatever the fair schedule and the shuffles: [enStack] returns a peeled
    order of all keys, and the loop of [colorPoints] goes through it. *)
Lemma coloured_degenerate KNN shuffle sch fuel al sites :
  symmetric al -> degenerate al -> located KNN sites al ->
  Forall (fun p => color p = black) sites ->
  fair sch -> (∀ j l, shuffle j l ≡ₚ l) -> (size al < fuel)%nat ->
  ∃ stack st',
    enStack sch fuel 0 al ∅ = Some stack ∧
    (∀ k, k ∈ stack ↔ is_Some (al !! k)) ∧
    colorPoints KNN shuffle sch fuel al (init sites) = Some st' ∧
    coloured KNN al (init sites) stack st'.
Proof.
  intros Hsym Hdg Hloc Hblack F Hshuf Hfuel.
  destruct (enStack_degenerate sch al fuel F Hdg) as (stack & Hs & _ & Hin & Hp);
    [lia..|].
  destruct (coloured_main KNN shuffle sch fuel al sites stack)
    as (st' & Hrun & C); try done.
  { apply list.Forall_forall. intros k Hk. now apply Hin. }
  now exists stack, st'.
Qed.

(** C1, amended. On a symmetric adjacency graph of degeneracy at most 5
    (whatever vertices are set aside, one of those left has fewer than 6
    neighbours left; every planar graph is such a graph), whose keys the
    tree finds at their sites, [colorPoints], run as [main] runs it, ends
    and gives any two distinct linked sites different colours, whatever
    the order of the [range] statements and whatever the shuffles. *)
Theorem coloring_proper_on_degenerate_graph KNN shuffle sch fuel al sites :
  symmetric al -> degenerate al -> located KNN sites al ->
  Forall (fun p => color p = black) sites ->
  fair sch -> (∀ j l, shuffle j l ≡ₚ l) -> (size al < fuel)%nat ->
  ∃ st', colorPoints KNN shuffle sch fuel al (init sites) = Some st' ∧
         ∀ A B, neighbor al A B -> A ≠ B ->
                ∃ cA cB, color_at KNN st' A = Some cA ∧
                         color_at KNN st' B = Some cB ∧ cA ≠ cB.
Proof.
  intros Hsym Hdg Hloc Hblack F Hshuf Hfuel.
  destruct (coloured_degenerate KNN shuffle sch fuel al sites)
    as (stack & st' & _ & Hin & Hrun & C); try done.
  exists st'. split; [done|]. intros A B HAB Hne.
  assert (HA : A ∈ stack).
  { apply Hin. destruct HAB as (v & -> & _). now eexists. }
  assert (HB : B ∈ stack).
  { apply Hin. apply Hsym in HAB. destruct HAB as (v & -> & _). now eexists. }
  destruct (col_palette C A HA) as (cA & HcA & _).
  destruct (col_palette C B HB) as (cB & HcB & _).
  exists cA, cB. repeat split; [done..|].
  intros ->. apply (col_proper C A B HA HB HAB Hne). congruence.
Qed.

Lemma coloring_proper_on_degenerate_graph_witness :
  ∃ st', colorPoints (scanKNN square) cut rotating 5 ring
           (init square) = Some st' ∧
         ∀ A B, neighbor ring A B -> A ≠ B ->
                ∃ cA cB, color_at (scanKNN square) st' A = Some cA ∧
                         color_at (scanKNN square) st' B = Some cB ∧ cA ≠ cB.
Proof.
  apply (coloring_proper_on_degenerate_graph (scanKNN square) cut rotating 5
           ring square).
  - by_computation.
  - apply degenerate_small_degree. by_computation.
  - by_computation.
  - by_computation.
  - exact rotating_fair.
  - exact cut_perm.
  - vm_compute. lia.
Defined.

(** ** A free colour at every visit *)

Section FreeColour.

Variable KNN : list float -> nat -> list nat.
Variable shuffle : nat -> list RGBA -> list RGBA.
Variable al : adjList.
Variable st0 : state.

Hypothesis Hsym : symmetric al.
Hypothesis Hloc : located KNN (pts st0) al.
Hypothesis Hinit : ∀ p, p ∈ pts st0 -> color p ∉ palette st0.
Hypothesis Hnd : NoDup (palette st0).
Hypothesis Hlen : length (palette st0) = 6%nat.
Hypothesis Hshuf : ∀ j l, shuffle j l ≡ₚ l.

(** A key with fewer than 6 visited neighbours: at most 5 colours of the
    palette are among the colours its neighbours show, and one is free. *)
Lemma coloured_free post st k :
  coloured KNN al st0 post st -> is_Some (al !! k) ->
  (length (filter (.∈ post) (neighbors al k)) < 6)%nat ->
  ∃ i p seen,
    nearest KNN k = Some i ∧ pts st !! i = Some p ∧
    seen_colors KNN al (pts st) p = Some seen ∧
    (length (filter (.∈ seen) (palette st)) <= 5)%nat ∧
    ∃ c, c ∈ palette st ∧ c ∉ seen.
Proof.
  intros C Hk Hdeg.
  pose proof (coloured_located KNN al st0 Hloc _ _ C) as Lst.
  destruct (Lst k Hk) as (i & p & Hi & Hp & Hxy).
  assert (Hnb : ∀ n, n ∈ neighbors al k -> is_Some (al !! n)).
  { intros n Hn. apply elem_of_neighbors, Hsym in Hn.
    destruct Hn as (v & Hv & _). now exists v. }
  destruct (mapM (color_of KNN (pts st)) (neighbors al k)) as [seen|] eqn:Hseen.
  2:{ exfalso. apply eq_None_not_Some in Hseen. apply Hseen.
      apply mapM_is_Some, list.Forall_forall.
      intros n Hn. destruct (Lst n (Hnb n Hn)) as (j & q & Hj & Hq & _).
      unfold compose, color_of. rewrite Hj. simpl. rewrite Hq. now eexists. }
  apply mapM_Some in Hseen as Hall.
  assert (Hpal : palette st ≡ₚ palette st0) by apply C.
  set (shown := (fun n => default black (color_of KNN (pts st) n))
                  <$> filter (.∈ post) (neighbors al k)).
  assert (Hshown : ∀ c, c ∈ seen -> c ∈ palette st -> c ∈ shown).
  { intros c Hin Hc.
    destruct (Forall2_elem_of_r _ _ _ _ Hall Hin) as (n & Hn & Hcn).
    apply list_elem_of_fmap. exists n. rewrite Hcn. split; [done|].
    apply list_elem_of_filter. split; [|done].
    destruct (decide (n ∈ post)) as [|Hno]; [done|exfalso].
    destruct (coloured_unvisited KNN al st0 Hloc Hinit _ _ n C (Hnb n Hn) Hno)
      as (c' & Hc' & Hout).
    apply Hout. rewrite <- Hpal. congruence. }
  assert (Hls : (length shown < 6)%nat) by (unfold shown; now rewrite length_fmap).
  exists i, p, seen. split; [done|]. split; [done|].
  split; [unfold seen_colors; now rewrite Hxy|]. split.
  - assert (Hs : filter (.∈ seen) (palette st) ⊆+ shown).
    { apply NoDup_submseteq.
      - apply list.NoDup_filter. now rewrite Hpal.
      - intros c [Hin Hc]%list_elem_of_filter. now apply Hshown. }
    apply submseteq_length in Hs. lia.
  - destruct (pigeonhole (palette st) shown) as (c & Hc & Hnc).
    + now rewrite Hpal.
    + now rewrite Hpal, Hlen.
    + exists c. split; [done|]. intros Hin. now apply Hnc, Hshown.
Qed.

(** Along a peeled order that holds for every visit of the loop. *)
Lemma coloured_run_free stack :
  peeled al stack -> (∀ k, k ∈ stack -> is_Some (al !! k)) ->
  ∀ n k, rev stack !! n = Some k ->
    ∃ s i p seen,
      for_each (colorSite KNN shuffle al) (take n (rev stack)) st0 = Some s ∧
      nearest KNN k = Some i ∧ pts s !! i = Some p ∧
      seen_colors KNN al (pts s) p = Some seen ∧
      (length (filter (.∈ seen) (palette s)) <= 5)%nat ∧
      ∃ c, c ∈ palette s ∧ c ∉ seen.
Proof.
  induction stack as [|k0 post IH]; intros Hp Hdom n k Hn; [discriminate Hn|].
  destruct Hp as (Hdeg & Hnk & Hp).
  assert (Hdom' : ∀ k', k' ∈ post -> is_Some (al !! k')).
  { intros k' Hk'. apply Hdom. now right. }
  simpl in *. destruct (decide (n < length (rev post))%nat) as [Hlt|Hge].
  - rewrite lookup_app_l in Hn by done.
    rewrite take_app_le by lia. now apply IH.
  - rewrite lookup_app_r in Hn by lia.
    destruct (n - length (rev post))%nat as [|m] eqn:Em; [|discriminate Hn].
    injection Hn as <-. assert (n = length (rev post)) as -> by lia.
    rewrite take_app_length.
    destruct (coloured_run KNN shuffle al st0 Hsym Hloc Hinit Hnd Hlen Hshuf
                post Hp Hdom') as (s & Hrun & C).
    destruct (coloured_free post s k0 C) as (i & p & seen & H); [|done|].
    { apply Hdom. left. }
    now exists s, i, p, seen.
Qed.

End FreeColour.

(** The run of [main] on a symmetric graph of degeneracy at most 5. *)
Lemma free_colour_degenerate KNN shuffle sch fuel al sites :
  symmetric al -> degenerate al -> located KNN sites al ->
  Forall (fun p => color p = black) sites ->
  fair sch -> (∀ j l, shuffle j l ≡ₚ l) -> (size al < fuel)%nat ->
  ∃ stack, enStack sch fuel 0 al ∅ = Some stack ∧
    ∀ n k, rev stack !! n = Some k ->
      ∃ s i p seen,
        for_each (colorSite KNN shuffle al) (take n (rev stack)) (init sites)
          = Some s ∧
        nearest KNN k = Some i ∧ pts s !! i = Some p ∧
        seen_colors KNN al (pts s) p = Some seen ∧
        (length (filter (.∈ seen) (palette s)) <= 5)%nat ∧
        ∃ c, c ∈ palette s ∧ c ∉ seen.
Proof.
  intros Hsym Hdg Hloc Hblack F Hshuf Hfuel.
  destruct (enStack_degenerate sch al fuel F Hdg) as (stack & Hs & _ & Hin & Hp);
    [lia..|].
  exists stack. split; [done|].
  apply (coloured_run_free KNN shuffle al (init sites)); try done.
  - intros p Hp'. rewrite list.Forall_forall in Hblack.
    rewrite (Hblack p Hp'). by_computation.
  - by_computation.
  - intros k Hk. now apply Hin.
Qed.

(** C3, amended. A visit to a site whose neighbours show every colour of
    the palette raises no failure, on whatever graph and in whatever state:
    it returns, and leaves the colour of the site and the list of writes as
    they were. On a symmetric graph of degeneracy at most 5 whose keys the
    tree finds at their sites this does not happen: at every visit of the
    run of [main] at most 5 colours of the palette are among the colours
    the neighbours show and one is free, and the run ends with a colour of
    the palette at every site of the graph. *)
Theorem exhaustion_is_silent shuffle :
  (∀ j l, shuffle j l ≡ₚ l) ->
  (∀ KNN al st k i p seen,
     nearest KNN k = Some i -> pts st !! i = Some p ->
     seen_colors KNN al (pts st) p = Some seen ->
     (∀ c, c ∈ palette st -> c ∈ seen) ->
     ∃ st', colorSite KNN shuffle al st k = Some st' ∧
            pts st' = pts st ∧ writes st' = writes st) ∧
  (∀ KNN sch fuel al sites,
     symmetric al -> degenerate al -> located KNN sites al ->
     Forall (fun p => color p = black) sites ->
     fair sch -> (size al < fuel)%nat ->
     ∃ stack st',
       enStack sch fuel 0 al ∅ = Some stack ∧
       colorPoints KNN shuffle sch fuel al (init sites) = Some st' ∧
       (∀ n k, rev stack !! n = Some k ->
          ∃ s i p seen,
            for_each (colorSite KNN shuffle al) (take n (rev stack))
              (init sites) = Some s ∧
            nearest KNN k = Some i ∧ pts s !! i = Some p ∧
            seen_colors KNN al (pts s) p = Some seen ∧
            (length (filter (.∈ seen) (palette s)) <= 5)%nat ∧
            ∃ c, c ∈ palette s ∧ c ∉ seen) ∧
       ∀ k, is_Some (al !! k) ->
            ∃ c, color_at KNN st' k = Some c ∧ c ∈ colors).
Proof.
  intros Hshuf. split.
  - intros KNN al st k i p seen. now apply colorSite_exhausted.
  - intros KNN sch fuel al sites Hsym Hdg Hloc Hblack F Hfuel.
    destruct (free_colour_degenerate KNN shuffle sch fuel al sites)
      as (stack & Hs & Hfree); try done.
    destruct (coloured_degenerate KNN shuffle sch fuel al sites)
      as (stack' & st' & Hs' & Hin & Hrun & C); try done.
    assert (stack' = stack) as -> by congruence.
    exists stack, st'. split; [done|]. split; [done|]. split; [exact Hfree|].
    intros k Hk. apply (col_palette C k). now apply Hin.
Qed.

(** Seven sites that are all linked with each other: when the loop of
    [colorPoints] has visited six of them, the six neighbours of the site
    (2,0) show the six colours of the palette, and the visit to it returns
    with nothing changed. The four sites of the square: every visit has a
    free colour, and every site ends with a colour of the palette. *)
Lemma exhaustion_is_silent_witness :
  (∃ st, for_each (colorSite (scanKNN (row 7)) cut (clique (row 7)))
           [XY 3 0; XY 1 0; XY 6 0; XY 0 0; XY 4 0; XY 5 0] (init (row 7))
         = Some st ∧
         seen_colors (scanKNN (row 7)) (clique (row 7)) (pts st) (site 2 0)
         = Some [mkRGBA 155 17 30 255; mkRGBA 135 206 235 255;
                 mkRGBA 89 49 95 255; mkRGBA 190 83 28 255;
                 mkRGBA 241 196 0 255; mkRGBA 19 104 67 255] ∧
         ∃ st', colorSite (scanKNN (row 7)) cut (clique (row 7)) st (XY 2 0)
                = Some st' ∧
                pts st' = pts st ∧ writes st' = writes st) ∧
  ∃ stack st',
    enStack in_order 5 0 ring ∅ = Some stack ∧
    colorPoints (scanKNN square) cut in_order 5 ring (init square) = Some st' ∧
    (∀ n k, rev stack !! n = Some k ->
       ∃ s i p seen,
         for_each (colorSite (scanKNN square) cut ring) (take n (rev stack))
           (init square) = Some s ∧
         nearest (scanKNN square) k = Some i ∧ pts s !! i = Some p ∧
         seen_colors (scanKNN square) ring (pts s) p = Some seen ∧
         (length (filter (.∈ seen) (palette s)) <= 5)%nat ∧
         ∃ c, c ∈ palette s ∧ c ∉ seen) ∧
    ∀ k, is_Some (ring !! k) ->
         ∃ c, color_at (scanKNN square) st' k = Some c ∧ c ∈ colors.
Proof.
  destruct (exhaustion_is_silent cut cut_perm) as [Hsilent Hrun]. split.
  - destruct (for_each (colorSite (scanKNN (row 7)) cut (clique (row 7)))
                [XY 3 0; XY 1 0; XY 6 0; XY 0 0; XY 4 0; XY 5 0] (init (row 7)))
      as [st|] eqn:E; [|vm_compute in E; discriminate E].
    exists st. split; [reflexivity|].
    vm_compute in E. injection E as <-.
    split; [by_computation|].
    apply (Hsilent (scanKNN (row 7)) (clique (row 7)) _ (XY 2 0) 2%nat (site 2 0)
             [mkRGBA 155 17 30 255; mkRGBA 135 206 235 255;
              mkRGBA 89 49 95 255; mkRGBA 190 83 28 255;
              mkRGBA 241 196 0 255; mkRGBA 19 104 67 255]);
      [by_computation..|].
    intros c Hc. revert c Hc. apply list.Forall_forall. by_computation.
  - apply (Hrun (scanKNN square) in_order 5%nat ring square).
    + by_computation.
    + apply degenerate_small_degree. by_computation.
    + by_computation.
    + by_computation.
    + exact in_order_fair.
    + vm_compute. lia.
Defined.

(** * Further properties *)

(** ** float64 identities *)

(** Rounding does not look at the sign. *)
Lemma binary_round_aux_opp s m e l :
  SFopp (binary_round_aux prec emax s m e l)
  = binary_round_aux prec emax (negb s) m e l.
Proof.
  unfold binary_round_aux.
  destruct (shr_fexp prec emax m e l) as [mrs' e'].
  destruct (shr_fexp prec emax _ e' loc_Exact) as [mrs'' e''].
  destruct (shr_m mrs''); [reflexivity| |reflexivity].
  now destruct (Z.leb e'' (Z.sub emax prec)).
Qed.

Lemma binary_round_opp s m e :
  SFopp (binary_round prec emax s m e) = binary_round prec emax (negb s) m e.
Proof.
  unfold binary_round. destruct (shl_align m e _) as [mz ez].
  apply binary_round_aux_opp.
Qed.

Lemma float_eq x y : Prim2SF x = Prim2SF y -> x = y.
Proof. apply Prim2SF_inj. Qed.

(** [(-y) * z = -(y * z)] *)
Lemma mul_opp_l y z : (- y) * z = - (y * z).
Proof.
  apply float_eq. rewrite opp_spec, !mul_spec, opp_spec.
  destruct (Prim2SF y) as [sy|sy| |sy my ey], (Prim2SF z) as [sz|sz| |sz mz ez];
    simpl; try reflexivity; try (now destruct sy, sz).
  unfold SF64mul, SFmul. rewrite binary_round_aux_opp. now destruct sy, sz.
Qed.

(** [x - w = x + (-w)] *)
Lemma sub_add_opp x w : x - w = x + (- w).
Proof.
  apply float_eq. rewrite sub_spec, add_spec, opp_spec.
  destruct (Prim2SF x) as [sx|sx| |sx mx ex], (Prim2SF w) as [sw|sw| |sw mw ew];
    simpl; try reflexivity; try (now destruct sx, sw).
Qed.

(** The difference taken the other way round is the opposite number, or
    both are [+0]. *)
Lemma sub_swap x y :
  Prim2SF (x - y) = SFopp (Prim2SF (y - x)) ∨
  (Prim2SF (x - y) = S754_zero false ∧ Prim2SF (y - x) = S754_zero false).
Proof.
  rewrite !sub_spec.
  destruct (Prim2SF x) as [sx|sx| |sx mx ex], (Prim2SF y) as [sy|sy| |sy my ey];
    simpl; try (left; reflexivity); try (now destruct sx, sy; auto).
  unfold SF64sub, SFsub. rewrite (Z.min_comm ey ex).
  set (a := cond_Zopp sx (Zpos (fst (shl_align mx ex (Z.min ex ey))))).
  set (b := cond_Zopp sy (Zpos (fst (shl_align my ey (Z.min ex ey))))).
  replace (Z.sub b a) with (Z.opp (Z.sub a b)) by lia.
  destruct (Z.sub a b) as [|p|p]; simpl.
  - now right.
  - left. now rewrite binary_round_opp.
  - left. now rewrite binary_round_opp.
Qed.

Lemma mul_opp_opp x : SFmul prec emax (SFopp x) (SFopp x) = SFmul prec emax x x.
Proof. destruct x as [s|s| |s m e]; simpl; try reflexivity; now destruct s. Qed.

(** The square of a difference does not depend on its direction. *)
Lemma sq_sub_swap x y : (x - y) * (x - y) = (y - x) * (y - x).
Proof.
  apply float_eq. rewrite !mul_spec.
  destruct (sub_swap x y) as [E|[E1 E2]].
  - rewrite E. apply mul_opp_opp.
  - now rewrite E1, E2.
Qed.

(** ** Bisectors and distances *)

(** X1. The bisector of two points of the plane, as [biscector] computes
    it in float64, has the vector from the first point to the second as
    its normal (up to the sign of a zero ordinate difference), and passes
    through the midpoint that [biscector] computes: the midpoint satisfies
    a x + b y = c without any rounding error. *)
Theorem biscector_through_midpoint p o px py ox oy :
  vec p = [px; py] -> vec o = [ox; oy] ->
  let l := biscector p o in
  let mx := (px + ox) / 2 in
  let my := (py + oy) / 2 in
  la l = ox - px ∧ lb l = - (py - oy) ∧
  la l * mx + lb l * my = lc l.
Proof.
  intros Hp Ho. unfold biscector, perp, point_line, GetValue, Dim.
  rewrite Hp, Ho. simpl. split; [done|]. split; [done|].
  now rewrite mul_opp_l, <- sub_add_opp.
Qed.

Lemma biscector_through_midpoint_witness :
  la (biscector (site 0 0) (site 2 10)) = 2 - 0 ∧
  lb (biscector (site 0 0) (site 2 10)) = - (0 - 10) ∧
  la (biscector (site 0 0) (site 2 10)) * ((0 + 2) / 2)
  + lb (biscector (site 0 0) (site 2 10)) * ((0 + 10) / 2)
  = lc (biscector (site 0 0) (site 2 10)).
Proof.
  apply (biscector_through_midpoint (site 0 0) (site 2 10) 0 0 2 10);
    reflexivity.
Defined.

Lemma Distance_step_swap pv ov ret i :
  ret + (nth i pv nan - nth i ov nan) * (nth i pv nan - nth i ov nan)
  = ret + (nth i ov nan - nth i pv nan) * (nth i ov nan - nth i pv nan).
Proof. now rewrite sq_sub_swap. Qed.

(** X2. [Distance] is symmetric for points of the same dimension, exactly:
    the two squared distances are the same float64. *)
Theorem Distance_symmetric pv ov :
  length pv = length ov -> Distance pv ov = Distance ov pv.
Proof.
  intros Hlen. unfold Distance. rewrite Hlen.
  generalize (seq 0 (length ov)) 0. intros idx.
  induction idx as [|i idx IH]; intros ret; simpl; [done|].
  now rewrite IH, Distance_step_swap.
Qed.

Lemma Distance_symmetric_witness :
  Distance [1; 2] [4; 6] = Distance [4; 6] [1; 2].
Proof. apply (Distance_symmetric [1; 2] [4; 6]). reflexivity. Defined.

(** X3. A point whose coordinates are numbers is at distance [+0] from
    itself, whatever its dimension. *)
Theorem Distance_self pv :
  Forall (fun x => finite64 x = true) pv -> Distance pv pv = 0.
Proof.
  intros Hfin. unfold Distance.
  assert (H : ∀ idx, Forall (fun i => (i < length pv)%nat) idx ->
              fold_left (fun ret i => ret + (nth i pv nan - nth i pv nan)
                                            * (nth i pv nan - nth i pv nan))
                        idx 0 = 0).
  { induction idx as [|i idx IH]; intros Hin; [done|]. simpl.
    apply list.Forall_cons in Hin as [Hi His].
    rewrite sub_diag.
    - change (0 + 0 * 0) with 0. now apply IH.
    - rewrite list.Forall_forall in Hfin. apply Hfin.
      apply list_elem_of_In, nth_In, Hi. }
  apply H. apply list.Forall_forall. intros i Hi.
  apply list_elem_of_In, in_seq in Hi. lia.
Qed.

Lemma Distance_self_witness : Distance [3; 4] [3; 4] = 0.
Proof.
  apply (Distance_self [3; 4]). apply (bool_decide_unpack _). vm_compute. exact I.
Defined.

(** ** The adjacency list under [add] and [link] *)

(** The neighbours of a key after [add], as a map. *)
Lemma add_lookup_inner l a b A n :
  (default ∅ (add l a b !! A)) !! n =
  if decide (point_xy a = A ∧ point_xy b = n) then Some true
  else (default ∅ (l !! A)) !! n.
Proof.
  rewrite add_lookup. destruct (decide (point_xy a = A)) as [<-|Hne]; simpl.
  - rewrite lookup_insert. destruct (decide (point_xy b = n)) as [<-|Hn].
    + now rewrite decide_True.
    + rewrite decide_False by tauto. done.
  - rewrite decide_False by tauto. done.
Qed.

Lemma add_is_Some l a b A :
  is_Some (add l a b !! A) ↔ A = point_xy a ∨ is_Some (l !! A).
Proof.
  rewrite add_lookup. case_decide as E.
  - subst. split; [now left|now eexists].
  - split; [now right|]. now intros [->|H].
Qed.

(** Two adjacency lists with the same keys and the same flags are one. *)
Lemma adjList_eq (l1 l2 : adjList) :
  (∀ A, is_Some (l1 !! A) ↔ is_Some (l2 !! A)) ->
  (∀ A n, (default ∅ (l1 !! A)) !! n = (default ∅ (l2 !! A)) !! n) ->
  l1 = l2.
Proof.
  intros Hk Hv. apply map_eq. intros A. specialize (Hk A).
  destruct (l1 !! A) as [v1|] eqn:E1, (l2 !! A) as [v2|] eqn:E2.
  - f_equal. apply map_eq. intros n. specialize (Hv A n).
    now rewrite E1, E2 in Hv.
  - destruct Hk as [Hk _]. now destruct Hk.
  - destruct Hk as [_ Hk]. now destruct Hk.
  - done.
Qed.

(** X4. Recording an edge is commutative and idempotent, and two
    recordings commute: the adjacency list depends on the set of edges
    recorded, not on their order, their direction or their number. *)
Theorem link_commutative_idempotent l a b c d :
  link l a b = link l b a ∧
  link (link l a b) a b = link l a b ∧
  link (link l a b) c d = link (link l c d) a b.
Proof.
  repeat split; apply adjList_eq; intros A; unfold link;
    try (rewrite !add_is_Some; tauto);
    intros n; rewrite !add_lookup_inner;
    repeat case_decide; try done; tauto.
Qed.

(** ** Divisions by a zero coefficient *)

Lemma div_zero_unbounded x y :
  y = 0 ∨ y = -0 -> finite64 (x / y) = false.
Proof.
  intros Hy. unfold finite64. rewrite div_spec.
  destruct Hy as [-> | ->]; simpl; now destruct (Prim2SF x).
Qed.

Lemma opp_unbounded x : finite64 x = false -> finite64 (- x) = false.
Proof. unfold finite64. rewrite opp_spec. now destruct (Prim2SF x). Qed.

Lemma mul_unbounded_l x y : finite64 x = false -> finite64 (x * y) = false.
Proof.
  unfold finite64. rewrite mul_spec.
  destruct (Prim2SF x), (Prim2SF y); simpl; done.
Qed.

Lemma add_unbounded x y :
  finite64 x = false -> finite64 y = false -> finite64 (x + y) = false.
Proof.
  unfold finite64. rewrite add_spec.
  destruct (Prim2SF x) as [| [] | |], (Prim2SF y) as [| [] | |]; simpl; done.
Qed.

(** The square of a difference with an unbounded number. *)
Lemma sq_sub_unbounded x v : finite64 x = false -> upper ((x - v) * (x - v)).
Proof.
  unfold finite64, upper. rewrite mul_spec, sub_spec.
  destruct (Prim2SF x) as [| [] | |], (Prim2SF v) as [| [] | |]; simpl;
    intros; try done; auto.
Qed.

(** A square is not [-Inf], and neither is the first partial sum of
    [Distance]. *)
Lemma sq_not_neg_inf t : Prim2SF (t * t) ≠ S754_infinity true.
Proof.
  rewrite mul_spec. destruct (Prim2SF t) as [[]|[]| |s m e]; simpl; try done.
  unfold SF64mul, SFmul, binary_round_aux.
  destruct (shr_fexp _ _ _ _ _) as [mrs' e'].
  destruct (shr_fexp _ _ _ _ _) as [mrs'' e''].
  destruct (shr_m mrs''); try done.
  destruct (Z.leb _ _); [done|]. now destruct s.
Qed.

Lemma zero_add_sq_not_neg_inf t : Prim2SF (0 + t * t) ≠ S754_infinity true.
Proof.
  rewrite add_spec. pose proof (sq_not_neg_inf t) as H.
  change (Prim2SF 0) with (S754_zero false).
  destruct (Prim2SF (t * t)) as [[]|[]| |s m e]; simpl; done.
Qed.

Lemma zero_add_upper x : upper x -> upper (0 + x).
Proof.
  unfold upper. rewrite add_spec. change (Prim2SF 0) with (S754_zero false).
  intros [-> | ->]; simpl; auto.
Qed.

Lemma add_upper_l x y :
  upper x -> Prim2SF y ≠ S754_infinity true -> upper (x + y).
Proof.
  unfold upper. rewrite add_spec.
  intros [-> | ->] Hy; destruct (Prim2SF y) as [[]|[]| |s m e]; simpl; auto; done.
Qed.

Lemma add_upper_r x y :
  Prim2SF x ≠ S754_infinity true -> upper y -> upper (x + y).
Proof.
  unfold upper. rewrite add_spec.
  intros Hx [-> | ->]; destruct (Prim2SF x) as [[]|[]| |s m e]; simpl; auto; done.
Qed.

(** Two such distances do not compare. *)
Lemma upper_not_near x y : upper x -> upper y -> (abs (x - y) <? 1) = false.
Proof.
  unfold upper. rewrite ltb_spec, abs_spec, sub_spec.
  intros [-> | ->] [-> | ->]; reflexivity.
Qed.

Lemma Distance_unbounded_snd a y v : finite64 y = false -> upper (Distance [a; y] v).
Proof.
  intros Hy. unfold Distance. simpl.
  apply add_upper_r; [apply zero_add_sq_not_neg_inf|now apply sq_sub_unbounded].
Qed.

Lemma Distance_unbounded_fst x b v : finite64 x = false -> upper (Distance [x; b] v).
Proof.
  intros Hx. unfold Distance. simpl.
  apply add_upper_l; [|apply sq_not_neg_inf].
  now apply zero_add_upper, sq_sub_unbounded.
Qed.

(** A candidate with an unbounded coordinate records nothing. *)
Lemma record_unbounded KNN sites al a b al' :
  finite64 a = false ∨ finite64 b = false ->
  record KNN sites al [a; b] = Some al' -> al' = al.
Proof.
  intros Hn. unfold record.
  destruct (KNN [a; b] 2%nat) as [|i0 [|i1 r]]; try discriminate.
  destruct (sites !! i0) as [n0|]; simpl; [|discriminate].
  destruct (sites !! i1) as [n1|]; simpl; [|discriminate].
  assert (E : ∀ v, upper (Distance [a; b] v)).
  { intros v. destruct Hn as [Hn|Hn];
      [now apply Distance_unbounded_fst | now apply Distance_unbounded_snd]. }
  rewrite (upper_not_near _ _ (E (vec n0)) (E (vec n1))). congruence.
Qed.

Lemma sample_x_unbounded l x :
  lb l = 0 ∨ lb l = -0 ->
  ∃ y, sample_x l x = [float64_of_int x; y] ∧ finite64 y = false.
Proof.
  intros Hb. eexists. split; [reflexivity|].
  apply add_unbounded.
  - apply mul_unbounded_l, opp_unbounded. now apply div_zero_unbounded.
  - now apply div_zero_unbounded.
Qed.

Lemma sample_y_unbounded l y :
  la l = 0 ∨ la l = -0 ->
  ∃ x, sample_y l y = [x; float64_of_int y] ∧ finite64 x = false.
Proof.
  intros Ha. eexists. split; [reflexivity|].
  apply add_unbounded.
  - apply mul_unbounded_l, opp_unbounded. now apply div_zero_unbounded.
  - now apply div_zero_unbounded.
Qed.

Lemma biscector_through_midpoint_coefficients p o px py ox oy :
  vec p = [px; py] -> vec o = [ox; oy] ->
  la (biscector p o) = ox - px ∧ lb (biscector p o) = - (py - oy).
Proof.
  intros Hp Ho. unfold biscector, perp, point_line, GetValue, Dim.
  rewrite Hp, Ho. simpl. now split.
Qed.

(** X5. Two sites on a horizontal line have a vertical bisector, whose [b]
    is zero: the first loop of [drawNear] divides by it [maxX] times and
    records nothing. Two sites on a vertical line: the same for the second
    loop. Each loop leaves the adjacency list as it finds it (or stops, if
    the tree returns fewer than two sites). *)
Theorem loop_idle_for_aligned_sites KNN sites p o px py ox oy :
  vec p = [px; py] -> vec o = [ox; oy] ->
  (py = oy -> finite64 py = true ->
   ∀ al al', for_each (fun al x => record KNN sites al (sample_x (biscector p o) x))
               (seq 0 maxX) al = Some al' -> al' = al) ∧
  (px = ox -> finite64 px = true ->
   ∀ al al', for_each (fun al y => record KNN sites al (sample_y (biscector p o) y))
               (seq 0 maxY) al = Some al' -> al' = al).
Proof.
  intros Hp Ho.
  destruct (biscector_through_midpoint_coefficients p o px py ox oy Hp Ho) as [Ea Eb].
  split.
  - intros -> Hf al al' H. eapply for_each_unchanged; [|exact H].
    intros x s1 s2 _ Hr.
    destruct (sample_x_unbounded (biscector p o) x) as (y & Hy & Hfy).
    { right. rewrite Eb, (sub_diag oy Hf). reflexivity. }
    cbv beta in Hr. rewrite Hy in Hr. eapply record_unbounded; [|exact Hr]. now right.
  - intros -> Hf al al' H. eapply for_each_unchanged; [|exact H].
    intros y s1 s2 _ Hr.
    destruct (sample_y_unbounded (biscector p o) y) as (x & Hx & Hfx).
    { left. rewrite Ea, (sub_diag ox Hf). reflexivity. }
    cbv beta in Hr. rewrite Hx in Hr. eapply record_unbounded; [|exact Hr]. now left.
Qed.

Lemma loop_idle_for_aligned_sites_witness :
  lb (biscector (site 0 0) (site 10 0)) = -0 ∧
  ∀ al al',
    for_each (fun al x => record (scanKNN [site 0 0; site 10 0])
                            [site 0 0; site 10 0] al
                            (sample_x (biscector (site 0 0) (site 10 0)) x))
      (seq 0 maxX) al = Some al' -> al' = al.
Proof.
  split; [reflexivity|].
  apply (loop_idle_for_aligned_sites (scanKNN [site 0 0; site 10 0])
           [site 0 0; site 10 0] (site 0 0) (site 10 0) 0 0 10 0);
    reflexivity.
Defined.

(** ** What the adjacency loop keeps *)

Section Recorder.

Variable KNN : list float -> nat -> list nat.
Variable sites : list point.

(** Whatever [record] leaves is what it found, or one [link] more, between
    the first two sites that the tree returned. *)
Lemma record_link al n al' :
  record KNN sites al n = Some al' ->
  al' = al ∨
  ∃ i0 i1 rest n0 n1,
    KNN n 2 = i0 :: i1 :: rest ∧ sites !! i0 = Some n0 ∧ sites !! i1 = Some n1 ∧
    (abs (Distance n (vec n0) - Distance n (vec n1)) <? 1) = true ∧
    al' = link al n0 n1.
Proof.
  unfold record. destruct (KNN n 2) as [|i0 [|i1 r]] eqn:E; try discriminate.
  destruct (sites !! i0) as [n0|] eqn:E0; simpl; [|discriminate].
  destruct (sites !! i1) as [n1|] eqn:E1; simpl; [|discriminate].
  destruct (_ <? _) eqn:Et; intros [= <-]; [right|now left].
  now exists i0, i1, r, n0, n1.
Qed.

Lemma well_kept_link l a b : well_kept l -> well_kept (link l a b).
Proof.
  intros W k v Hv. unfold link in Hv. rewrite add_lookup in Hv.
  assert (Wadd : ∀ l a b, well_kept l -> well_kept (add l a b)).
  { clear. intros l a b W k v Hv. rewrite add_lookup in Hv.
    case_decide as E; [|exact (W k v Hv)]. injection Hv as <-. split.
    - apply insert_non_empty.
    - intros n b'. rewrite lookup_insert. case_decide; [now intros [= <-]|].
      destruct (l !! point_xy a) as [w|] eqn:Ew; simpl.
      + apply (W _ _ Ew).
      + now rewrite lookup_empty. }
  apply (Wadd (add l a b) b a (Wadd l a b W) k v).
  now rewrite add_lookup.
Qed.

Lemma at_sites_link l a b :
  a ∈ sites -> b ∈ sites -> at_sites sites l -> at_sites sites (link l a b).
Proof.
  intros Ha Hb S A B. rewrite neighbor_link.
  intros [H|[[-> ->]|[-> ->]]]; [now apply S|split; eauto..].
Qed.

(** X6. The adjacency list that [main] builds has no vertex without an
    edge: every key has at least one neighbour, every neighbour is flagged
    [true], and every key and every neighbour is at one of the sites. *)
Theorem buildAdjacency_well_kept al :
  buildAdjacency KNN sites = Some al ->
  well_kept al ∧ at_sites sites al.
Proof.
  rewrite buildAdjacency_candidates.
  apply (for_each_invariant (fun l => well_kept l ∧ at_sites sites l)).
  - intros s n s' _ [W S] H.
    destruct (record_link _ _ _ H)
      as [->|(i0 & i1 & r & n0 & n1 & _ & H0 & H1 & _ & ->)]; [done|].
    split; [now apply well_kept_link|].
    apply at_sites_link; [eapply list_elem_of_lookup_2; eauto..|done].
  - split.
    + intros k v Hv. now rewrite lookup_empty in Hv.
    + intros A B (v & Hv & _). now rewrite lookup_empty in Hv.
Qed.

(** X7. [drawNear] never removes an edge: what is recorded stays. *)
Theorem drawNear_grows l al al' :
  drawNear KNN sites l al = Some al' ->
  ∀ A B, neighbor al A B -> neighbor al' A B.
Proof.
  rewrite drawNear_candidates.
  apply (for_each_invariant (fun s => ∀ A B, neighbor al A B -> neighbor s A B));
    [|done].
  intros s n s' _ Hs H A B HAB.
  destruct (record_link _ _ _ H)
    as [->|(i0 & i1 & r & n0 & n1 & _ & _ & _ & _ & ->)]; [now apply Hs|].
  apply neighbor_link. left. now apply Hs.
Qed.

(** X8. No site is recorded as its own neighbour, when no two sites have
    the same coordinates and the tree does not return a site twice. *)
Theorem buildAdjacency_no_self_loop al :
  NoDup (point_xy <$> sites) -> (∀ q, NoDup (KNN q 2)) ->
  buildAdjacency KNN sites = Some al ->
  ∀ A, ¬ neighbor al A A.
Proof.
  intros Hd Hk. rewrite buildAdjacency_candidates.
  apply (for_each_invariant (fun s => ∀ A, ¬ neighbor s A A)).
  - intros s n s' _ Hs H A.
    destruct (record_link _ _ _ H)
      as [->|(i0 & i1 & r & n0 & n1 & E & H0 & H1 & _ & ->)]; [apply Hs|].
    rewrite neighbor_link. intros [HA|[[-> E']|[-> E']]]; [now apply (Hs A)|..].
    + specialize (Hk n). rewrite E in Hk.
      apply list.NoDup_cons in Hk as [Hk _]. apply Hk.
      assert (i0 = i1) as ->; [|left].
      apply (NoDup_lookup (point_xy <$> sites) i0 i1 (point_xy n0) Hd);
        rewrite list_lookup_fmap; [rewrite H0|rewrite H1]; simpl; congruence.
    + specialize (Hk n). rewrite E in Hk.
      apply list.NoDup_cons in Hk as [Hk _]. apply Hk.
      assert (i0 = i1) as ->; [|left].
      apply (NoDup_lookup (point_xy <$> sites) i0 i1 (point_xy n0) Hd);
        rewrite list_lookup_fmap; [rewrite H0|rewrite H1]; simpl; congruence.
  - intros A (v & Hv & _). now rewrite lookup_empty in Hv.
Qed.

End Recorder.

(** ** The exhaustive tree of the examples *)

Lemma insert_near_perm x l : insert_near x l ≡ₚ x :: l.
Proof.
  induction l as [|y l IH]; simpl; [done|].
  destruct (_ <=? _); [done|]. rewrite IH. apply perm_swap.
Qed.

Lemma sort_near_perm l : foldr insert_near [] l ≡ₚ l.
Proof.
  induction l as [|x l IH]; simpl; [done|].
  now rewrite insert_near_perm, IH.
Qed.

Lemma imap_positions {A} (g : A -> float) (l : list A) j :
  snd <$> imap (fun i p => (g p, (j + i)%nat)) l = seq j (length l).
Proof.
  revert j. induction l as [|x l IH]; intros j; simpl; [done|].
  rewrite Nat.add_0_r. f_equal. rewrite <- (IH (S j)). f_equal.
  apply imap_ext. intros i y _. simpl. f_equal. lia.
Qed.

(** The exhaustive tree returns positions of sites, none of them twice. *)
Lemma scanKNN_NoDup sites q k : NoDup (scanKNN sites q k).
Proof.
  unfold scanKNN. eapply sublist_NoDup; [|apply sublist_take].
  rewrite sort_near_perm.
  pose proof (imap_positions (fun p => Distance q (vec p)) sites 0) as E.
  simpl in E. rewrite E. apply NoDup_seq.
Qed.

Lemma buildAdjacency_well_kept_witness :
  well_kept (link ∅ (site 0 0) (site 0 10)) ∧
  at_sites [site 0 0; site 0 10] (link ∅ (site 0 0) (site 0 10)).
Proof.
  apply (buildAdjacency_well_kept (scanKNN [site 0 0; site 0 10])
           [site 0 0; site 0 10]).
  exact two_sites_adjacency.
Defined.

(** With two sites [main] runs [drawNear] once. *)
Lemma buildAdjacency_two KNN a b :
  buildAdjacency KNN [a; b] = drawNear KNN [a; b] (biscector a b) ∅.
Proof.
  unfold buildAdjacency. cbn [pairs map app for_each fst snd].
  now destruct (drawNear KNN [a; b] (biscector a b) ∅).
Qed.

Lemma two_sites_drawNear :
  drawNear (scanKNN [site 0 0; site 0 10]) [site 0 0; site 0 10]
    (biscector (site 0 0) (site 0 10)) ∅
  = Some (link ∅ (site 0 0) (site 0 10)).
Proof. rewrite <- buildAdjacency_two. exact two_sites_adjacency. Qed.

(** Two recordings commute. *)
Lemma link_exchange l a b c d :
  link (link l a b) c d = link (link l c d) a b.
Proof.
  apply adjList_eq; intros A; unfold link.
  - rewrite !add_is_Some. tauto.
  - intros n. rewrite !add_lookup_inner. repeat case_decide; try done; tauto.
Qed.

(** What [record] and [drawNear] add does not depend on what the list
    holds: an edge recorded before can as well be recorded after. *)
Lemma record_after_link KNN sites al a b n :
  record KNN sites (link al a b) n
  = (fun r => link r a b) <$> record KNN sites al n.
Proof.
  unfold record. destruct (KNN n 2%nat) as [|i0 [|i1 r]]; try done.
  destruct (sites !! i0) as [n0|]; simpl; [|done].
  destruct (sites !! i1) as [n1|]; simpl; [|done].
  destruct (_ <? _); simpl; [|done]. now rewrite link_exchange.
Qed.

Lemma drawNear_after_link KNN sites l al a b :
  drawNear KNN sites l (link al a b)
  = (fun r => link r a b) <$> drawNear KNN sites l al.
Proof.
  rewrite !drawNear_candidates. generalize (candidates l). intros cs.
  revert al. induction cs as [|n cs IH]; intros al; simpl; [done|].
  rewrite record_after_link.
  destruct (record KNN sites al n) as [al1|]; simpl; [apply IH|done].
Qed.

(** The edge between (20,30) and (25,35), recorded before [drawNear] runs
    on the two sites (0,0) and (0,10), is still there beside the new one. *)
Lemma drawNear_grows_witness :
  drawNear (scanKNN [site 0 0; site 0 10]) [site 0 0; site 0 10]
    (biscector (site 0 0) (site 0 10)) (link ∅ (site 20 30) (site 25 35))
  = Some (link (link ∅ (site 0 0) (site 0 10)) (site 20 30) (site 25 35)) ∧
  neighbor (link ∅ (site 20 30) (site 25 35)) (XY 20 30) (XY 25 35) ∧
  ∀ A B, neighbor (link ∅ (site 20 30) (site 25 35)) A B ->
         neighbor (link (link ∅ (site 0 0) (site 0 10)) (site 20 30) (site 25 35))
           A B.
Proof.
  assert (E : drawNear (scanKNN [site 0 0; site 0 10]) [site 0 0; site 0 10]
                (biscector (site 0 0) (site 0 10))
                (link ∅ (site 20 30) (site 25 35))
              = Some (link (link ∅ (site 0 0) (site 0 10))
                        (site 20 30) (site 25 35))).
  { rewrite drawNear_after_link, two_sites_drawNear. reflexivity. }
  split; [exact E|].
  split; [apply neighbor_link; right; left; now split|].
  apply (drawNear_grows (scanKNN [site 0 0; site 0 10]) [site 0 0; site 0 10]
           (biscector (site 0 0) (site 0 10))).
  exact E.
Defined.

Lemma buildAdjacency_no_self_loop_witness :
  neighbor (link ∅ (site 0 0) (site 0 10)) (XY 0 0) (XY 0 10) ∧
  ∀ A, ¬ neighbor (link ∅ (site 0 0) (site 0 10)) A A.
Proof.
  split; [apply neighbor_link; right; left; now split|].
  apply (buildAdjacency_no_self_loop (scanKNN [site 0 0; site 0 10])
           [site 0 0; site 0 10]).
  - apply (bool_decide_unpack _). vm_compute. exact I.
  - intros q. apply scanKNN_NoDup.
  - exact two_sites_adjacency.
Defined.

(** ** More on the elimination order *)

(** X9. On an adjacency list of degeneracy at most 5, under any fair order
    of the [range] statements, [enStack] returns within as many calls as
    there are vertices, and returns a permutation of the vertices in which
    each has fewer than 6 neighbours among the later ones: the second loop
    is never reached. *)
Theorem enStack_total_on_degenerate sch l fuel :
  fair sch -> degenerate l -> (size l < fuel)%nat ->
  ∃ out, enStack sch fuel 0 l ∅ = Some out ∧ out ≡ₚ keys l ∧ peeled l out.
Proof.
  intros F Dg Hfuel.
  destruct (enStack_degenerate sch l fuel F Dg) as (out & Hr & Hnd & Hin & Hp);
    [lia..|].
  exists out. split; [done|]. split; [|done].
  apply NoDup_Permutation; [done|apply NoDup_keys|].
  intros k. now rewrite Hin, elem_of_keys.
Qed.

Lemma enStack_total_on_degenerate_witness :
  ∃ out, enStack rotating 5 0 ring ∅ = Some out ∧ out ≡ₚ keys ring ∧
         peeled ring out.
Proof.
  apply (enStack_total_on_degenerate rotating ring 5).
  - exact rotating_fair.
  - apply degenerate_small_degree. by_computation.
  - vm_compute. lia.
Defined.

(** Whatever [enStack] returns holds every key that was not seen. *)
Lemma enStack_covers sch l :
  fair sch ->
  ∀ fuel t seen out,
    marks l seen -> enStack sch fuel t l seen = Some out ->
    ∀ k, is_Some (l !! k) -> seen !! k = None -> k ∈ out.
Proof.
  intros F. induction fuel as [|fuel IH]; intros t seen out M; [discriminate|].
  rewrite enStack_S. destruct (chosen sch t l seen) as [k0|] eqn:Ec.
  - pose proof (chosen_key _ _ _ _ _ F Ec) as Hk0.
    pose proof (marks_insert l seen k0 M Hk0) as M'.
    destruct (decide _) as [Hsz|Hsz].
    + intros [= <-] k Hk Hs. apply list_elem_of_singleton.
      destruct (decide (k = k0)) as [|Hne]; [done|exfalso].
      assert (Hd : dom (<[k0 := true]> seen) = dom l).
      { apply set_subseteq_size_eq; [now apply marks_dom|].
        rewrite !size_dom. lia. }
      apply elem_of_dom in Hk. rewrite <- Hd in Hk. apply elem_of_dom in Hk.
      rewrite lookup_insert_ne in Hk by done. rewrite Hs in Hk. now destruct Hk.
    + destruct (enStack sch fuel (S t) l _) as [rest|] eqn:Er; [|discriminate].
      intros [= <-] k Hk Hs. destruct (decide (k = k0)) as [->|Hne]; [left|].
      right. apply (IH _ _ _ M' Er k Hk). now rewrite lookup_insert_ne.
  - intros [= <-] k Hk _. exfalso. unfold chosen in Ec.
    destruct (List.find _ _); [discriminate Ec|].
    assert (Hin : k ∈ sch (2 * t + 1)%nat (keys l))
      by (rewrite (F _ _); now apply elem_of_keys).
    destruct (sch (2 * t + 1)%nat (keys l)) as [|k' r];
      [now apply elem_of_nil in Hin|discriminate Ec].
Qed.

(** X10. Whenever [enStack], called by [colorPoints], returns (under a
    fair order of the [range] statements), the order holds the vertices of
    the graph and nothing else: every key of the adjacency list occurs in
    it, at least once. *)
Theorem enStack_lists_the_keys sch fuel l out :
  fair sch -> enStack sch fuel 0 l ∅ = Some out ->
  ∀ k, k ∈ out ↔ is_Some (l !! k).
Proof.
  intros F H k. split.
  - now apply (enStack_keys sch fuel 0 l ∅ out).
  - intros Hk. apply (enStack_covers sch l F fuel 0 ∅ out); try done.
Qed.

Lemma enStack_lists_the_keys_witness :
  fair stalling ∧
  ∀ k, k ∈ [XY 3 0; XY 3 0; XY 2 0; XY 7 0; XY 5 0; XY 6 0; XY 4 0; XY 1 0; XY 0 0]
       ↔ is_Some (clique (row 8) !! k).
Proof.
  split; [exact stalling_fair|].
  apply (enStack_lists_the_keys stalling 9 (clique (row 8))).
  - exact stalling_fair.
  - by_computation.
Defined.

(** ** More on the colourer *)

(** X11. With no site or one site, [main] records no edge, [enStack]
    returns the empty order, and [colorPoints] does nothing at all: no
    query to the tree, no shuffle, no write; the site stays black. *)
Theorem lone_site_untouched KNN shuffle sch fuel sites :
  fair sch -> (length sites <= 1)%nat ->
  pipeline KNN shuffle sch (S fuel) sites = Some (∅, init sites).
Proof.
  intros F Hlen.
  assert (Hb : buildAdjacency KNN sites = Some ∅).
  { destruct sites as [|p [|q r]]; [reflexivity..|simpl in Hlen; lia]. }
  unfold pipeline. rewrite Hb. simpl. unfold colorPoints. rewrite enStack_S.
  assert (E : chosen sch 0 ∅ ∅ = None).
  { unfold chosen. assert (Hk : ∀ n, sch n (keys (∅ : adjList)) = []).
    { intros n. apply Permutation_nil_r. rewrite (F n). unfold keys.
      now rewrite map_to_list_empty. }
    now rewrite !Hk. }
  now rewrite E.
Qed.

Lemma lone_site_untouched_witness :
  pipeline noKNN cut rotating 1 [site 3 4] = Some (∅, init [site 3 4]).
Proof.
  apply (lone_site_untouched noKNN cut rotating 0 [site 3 4]).
  - exact rotating_fair.
  - simpl. lia.
Defined.

Section Keeps.

Variable KNN : list float -> nat -> list nat.
Variable shuffle : nat -> list RGBA -> list RGBA.
Hypothesis Hshuf : ∀ j l, shuffle j l ≡ₚ l.

Lemma colorSite_keeps al st k st' :
  colorSite KNN shuffle al st k = Some st' ->
  vec <$> pts st' = vec <$> pts st ∧ palette st' ≡ₚ palette st ∧
  shuffles st' = S (shuffles st) ∧
  ∀ j q', pts st' !! j = Some q' ->
          pts st !! j = Some q' ∨ color q' ∈ palette st.
Proof.
  intros H. destruct (colorSite_inv _ _ _ _ _ _ H) as (i & p & seen & Hi & Hp & Hs).
  rewrite (colorSite_spec _ _ _ _ _ _ _ _ Hi Hp Hs) in H. injection H as <-.
  simpl. split; [|split; [apply Hshuf|split; [done|]]].
  - rewrite list_fmap_insert. simpl. apply list_insert_id.
    now rewrite list_lookup_fmap, Hp.
  - intros j q'. destruct (decide (j = i)) as [->|Hne].
    + rewrite list_lookup_insert_eq by now apply lookup_lt_Some in Hp.
      intros [= <-]. simpl.
      destruct (list.last _) as [c|] eqn:El; simpl.
      * right. apply last_Some in El as [l' El].
        assert (Hc : c ∈ filter (.∉ seen) (shuffle (shuffles st) (palette st)))
          by (rewrite El; apply elem_of_app; right; left).
        apply list_elem_of_filter in Hc as [_ Hc].
        now rewrite (Hshuf (shuffles st) (palette st)) in Hc.
      * left. rewrite Hp. now destruct p.
    + rewrite list_lookup_insert_ne by done. now left.
Qed.

Lemma for_each_keeps al ks st st' :
  for_each (colorSite KNN shuffle al) ks st = Some st' ->
  vec <$> pts st' = vec <$> pts st ∧ palette st' ≡ₚ palette st ∧
  shuffles st' = (shuffles st + length ks)%nat ∧
  ∀ j q q', pts st !! j = Some q -> pts st' !! j = Some q' ->
            color q' = color q ∨ color q' ∈ palette st.
Proof.
  revert st. induction ks as [|k ks IH]; intros st; simpl.
  - intros [= <-]. split; [done|]. split; [done|]. split; [simpl; lia|].
    intros j q q' Hq Hq'. left. congruence.
  - destruct (colorSite KNN shuffle al st k) as [st1|] eqn:E; simpl; [|done].
    intros H. destruct (colorSite_keeps _ _ _ _ E) as (V1 & P1 & S1 & C1).
    destruct (IH _ H) as (V2 & P2 & S2 & C2).
    split; [congruence|]. split; [now rewrite P2|]. split; [lia|].
    intros j q q' Hq Hq'.
    destruct (lookup_same_vec (pts st) (pts st1) j q V1 Hq) as (q1 & Hq1 & _).
    destruct (C2 j q1 q' Hq1 Hq') as [E'|Hin].
    + rewrite E'. destruct (C1 j q1 Hq1) as [E1|Hin1]; [left; congruence|now right].
    + right. now rewrite <- P1.
Qed.

(** X12. [colorPoints] moves no site and keeps the colours of the palette;
    it shuffles the palette once for every entry of the elimination order,
    also at a visit that assigns nothing; and it leaves at every site the
    colour the site had or a colour of the palette. *)
Theorem colorPoints_keeps sch fuel al st st' :
  colorPoints KNN shuffle sch fuel al st = Some st' ->
  ∃ stack, enStack sch fuel 0 al ∅ = Some stack ∧
    vec <$> pts st' = vec <$> pts st ∧ palette st' ≡ₚ palette st ∧
    shuffles st' = (shuffles st + length stack)%nat ∧
    ∀ j q q', pts st !! j = Some q -> pts st' !! j = Some q' ->
              color q' = color q ∨ color q' ∈ palette st.
Proof.
  unfold colorPoints.
  destruct (enStack sch fuel 0 al ∅) as [stack|]; [|discriminate].
  simpl. intros H. exists stack. split; [done|].
  destruct (for_each_keeps _ _ _ _ H) as (V & P & S & C).
  rewrite length_rev in S. done.
Qed.

End Keeps.

Lemma colorPoints_keeps_witness :
  ∃ stack, enStack in_order 2 0 (clique (row 2)) ∅ = Some stack ∧
    vec <$> [Point [0; 0] (mkRGBA 155 17 30 255);
             Point [1; 0] (mkRGBA 241 196 0 255)]
      = vec <$> pts (init (row 2)) ∧
    cut 1 (cut 0 colors) ≡ₚ palette (init (row 2)) ∧
    2%nat = (shuffles (init (row 2)) + length stack)%nat ∧
    ∀ j q q', pts (init (row 2)) !! j = Some q ->
              [Point [0; 0] (mkRGBA 155 17 30 255);
               Point [1; 0] (mkRGBA 241 196 0 255)] !! j = Some q' ->
              color q' = color q ∨ color q' ∈ palette (init (row 2)).
Proof.
  apply (colorPoints_keeps (scanKNN (row 2)) cut cut_perm in_order 2
           (clique (row 2)) (init (row 2))
           (State [Point [0; 0] (mkRGBA 155 17 30 255);
                   Point [1; 0] (mkRGBA 241 196 0 255)]
                  (cut 1 (cut 0 colors)) 2
                  (map (pair 0%nat) (cut 0 colors) ++
                   map (pair 1%nat) (take 3 (cut 1 (cut 0 colors))) ++
                   map (pair 1%nat) (drop 4 (cut 1 (cut 0 colors)))))).
  by_computation.
Defined.

(** ** Colours that clash *)

Section Clash.

Variable KNN : list float -> nat -> list nat.
Variable shuffle : nat -> list RGBA -> list RGBA.
Variable al : adjList.
Variable sites : list point.

Hypothesis Hsym : symmetric al.
Hypothesis Hloc : located KNN sites al.

Lemma clash_free_step st k st' :
  is_Some (al !! k) -> clash_free KNN al sites st ->
  colorSite KNN shuffle al st k = Some st' -> clash_free KNN al sites st'.
Proof.
  intros Hk [Hv Hc] H.
  assert (Lst : located KNN (pts st) al) by (eapply located_same_vec; eauto).
  destruct (colorSite_inv _ _ _ _ _ _ H) as (i & p & seen & Hi & Hp & Hs).
  rewrite (colorSite_spec _ _ _ _ _ _ _ _ Hi Hp Hs) in H. injection H as <-.
  split; simpl.
  { rewrite list_fmap_insert. simpl. rewrite list_insert_id; [done|].
    now rewrite list_lookup_fmap, Hp. }
  assert (Hxy : point_xy p = k).
  { destruct (Lst k Hk) as (i' & p' & Hi' & Hp' & Hxy). congruence. }
  destruct (list.last _) as [c0|] eqn:El; simpl.
  2:{ rewrite list_insert_id; [exact Hc|]. rewrite Hp. now destruct p. }
  assert (Hfree : c0 ∉ seen).
  { apply last_Some in El as [l' El].
    assert (Hin : c0 ∈ filter (.∉ seen) (shuffle (shuffles st) (palette st)))
      by (rewrite El; apply elem_of_app; right; left).
    now apply list_elem_of_filter in Hin as [? _]. }
  assert (Hlt : (i < length (pts st))%nat) by now apply lookup_lt_Some in Hp.
  unfold seen_colors in Hs. rewrite Hxy in Hs. apply mapM_Some in Hs.
  assert (Hnb : ∀ B, neighbor al k B -> color_of KNN (pts st) B ≠ Some c0).
  { intros B HB E. apply Hfree. apply elem_of_neighbors in HB.
    destruct (Forall2_elem_of_l _ _ _ _ Hs HB) as (y & Hy & Hy'). congruence. }
  assert (Hkey : ∀ A B, neighbor al A B -> is_Some (al !! A)).
  { intros A B (v & Hv' & _). now exists v. }
  intros A B c HAB Hne HA HB.
  pose proof (Hkey A B HAB) as KA.
  pose proof (Hkey B A (proj1 (Hsym A B) HAB)) as KB.
  destruct (Lst A KA) as (jA & pA & HjA & _).
  destruct (Lst B KB) as (jB & pB & HjB & _).
  destruct (decide (jA = i)) as [->|NA]; destruct (decide (jB = i)) as [->|NB].
  - exfalso. apply Hne.
    exact (located_inj KNN al (pts st) A B i Lst KA KB HjA HjB).
  - assert (A = k) as -> by exact (located_inj KNN al (pts st) A k i Lst KA Hk HjA Hi).
    rewrite (color_of_insert_eq _ _ i) in HA by done. simpl in HA. injection HA as <-.
    rewrite (color_of_insert_ne _ _ _ jB) in HB by done.
    now destruct (Hnb B HAB).
  - assert (B = k) as -> by exact (located_inj KNN al (pts st) B k i Lst KB Hk HjB Hi).
    rewrite (color_of_insert_eq _ _ i) in HB by done. simpl in HB. injection HB as <-.
    rewrite (color_of_insert_ne _ _ _ jA) in HA by done.
    now destruct (Hnb A (proj1 (Hsym A k) HAB)).
  - rewrite (color_of_insert_ne _ _ _ jA) in HA by done.
    rewrite (color_of_insert_ne _ _ _ jB) in HB by done.
    exact (Hc A B c HAB Hne HA HB).
Qed.

End Clash.

(** X13. Whatever order [enStack] returns, with keys twice or in an order
    that leaves a site without a free colour, and whatever the shuffles:
    two distinct linked sites that end with the same colour are both still
    black, so no colour of the palette is ever at both ends of an edge. *)
Theorem clash_only_in_black KNN shuffle sch fuel al sites st' :
  symmetric al -> located KNN sites al ->
  Forall (fun p => color p = black) sites -> fair sch ->
  colorPoints KNN shuffle sch fuel al (init sites) = Some st' ->
  ∀ A B c, neighbor al A B -> A ≠ B ->
           color_at KNN st' A = Some c -> color_at KNN st' B = Some c ->
           c = black ∧ c ∉ colors.
Proof.
  intros Hsym Hloc Hblack F H. unfold colorPoints in H.
  destruct (enStack sch fuel 0 al ∅) as [stack|] eqn:Es; [|discriminate H].
  simpl in H.
  assert (HP : clash_free KNN al sites st').
  { apply (for_each_invariant (clash_free KNN al sites)
             (colorSite KNN shuffle al) (rev stack)) with (s := init sites);
      [| |exact H].
    - intros s k s' Hin Hs Hstep.
      apply (clash_free_step KNN shuffle al sites Hsym Hloc s k s'); [|done..].
      rewrite elem_of_rev in Hin. exact (enStack_keys _ _ _ _ _ _ F Es k Hin).
    - split; [done|]. intros A B c _ _ HA _. unfold color_of in HA. simpl in HA.
      destruct (nearest KNN A) as [j|]; [|discriminate HA]. simpl in HA.
      destruct (sites !! j) as [q|] eqn:Eq; [|discriminate HA].
      injection HA as <-. rewrite list.Forall_forall in Hblack.
      apply Hblack. eapply list_elem_of_lookup_2. exact Eq. }
  intros A B c HAB Hne HA HB.
  assert (E : c = black) by exact (proj2 HP A B c HAB Hne HA HB).
  split; [done|]. rewrite E. by_computation.
Qed.

Lemma clash_only_in_black_witness :
  ∃ st', colorPoints (scanKNN (row 8)) cut rotating 8 (clique (row 8))
           (init (row 8)) = Some st' ∧
         ∀ A B c, neighbor (clique (row 8)) A B -> A ≠ B ->
                  color_at (scanKNN (row 8)) st' A = Some c ->
                  color_at (scanKNN (row 8)) st' B = Some c ->
                  c = black ∧ c ∉ colors.
Proof.
  destruct (colorPoints (scanKNN (row 8)) cut rotating 8 (clique (row 8))
              (init (row 8))) as [st'|] eqn:E;
    [|vm_compute in E; discriminate E].
  exists st'. split; [reflexivity|].
  apply (clash_only_in_black (scanKNN (row 8)) cut rotating 8
           (clique (row 8)) (row 8) st').
  - by_computation.
  - by_computation.
  - by_computation.
  - exact rotating_fair.
  - exact E.
Defined.

(** ** From the sites to the colours *)

(** X14. The two steps of [main] together: when the adjacency loop ends
    with a graph of degeneracy at most 5 whose keys the tree finds at their
    sites, the colourer ends too, moves no site, and gives the two ends of
    every edge between distinct keys two different colours of the palette.
    The symmetry that the colourer relies on is the adjacency loop's own. *)
Theorem pipeline_colours_the_graph KNN shuffle sch fuel sites al :
  buildAdjacency KNN sites = Some al -> degenerate al ->
  located KNN sites al -> Forall (fun p => color p = black) sites ->
  fair sch -> (∀ j l, shuffle j l ≡ₚ l) -> (size al < fuel)%nat ->
  ∃ st', pipeline KNN shuffle sch fuel sites = Some (al, st') ∧
         vec <$> pts st' = vec <$> sites ∧
         ∀ A B, neighbor al A B -> A ≠ B ->
                ∃ cA cB, color_at KNN st' A = Some cA ∧
                         color_at KNN st' B = Some cB ∧
                         cA ∈ colors ∧ cB ∈ colors ∧ cA ≠ cB.
Proof.
  intros Hb Hdg Hloc Hblack F Hshuf Hfuel.
  pose proof (buildAdjacency_symmetric KNN sites al Hb) as Hsym.
  destruct (coloured_degenerate KNN shuffle sch fuel al sites)
    as (stack & st' & _ & Hin & Hrun & C); try done.
  exists st'. split; [unfold pipeline; rewrite Hb; simpl; now rewrite Hrun|].
  split; [exact (col_vec C)|]. intros A B HAB Hne.
  assert (HA : A ∈ stack).
  { apply Hin. destruct HAB as (v & -> & _). now eexists. }
  assert (HB : B ∈ stack).
  { apply Hin. apply Hsym in HAB. destruct HAB as (v & -> & _). now eexists. }
  destruct (col_palette C A HA) as (cA & HcA & HpA).
  destruct (col_palette C B HB) as (cB & HcB & HpB).
  exists cA, cB. repeat split; [done..|].
  intros ->. apply (col_proper C A B HA HB HAB Hne). congruence.
Qed.

Lemma pipeline_colours_the_graph_witness :
  ∃ st', pipeline (scanKNN [site 0 0; site 0 10]) cut in_order 3
           [site 0 0; site 0 10]
         = Some (link ∅ (site 0 0) (site 0 10), st') ∧
         vec <$> pts st' = vec <$> [site 0 0; site 0 10] ∧
         ∀ A B, neighbor (link ∅ (site 0 0) (site 0 10)) A B -> A ≠ B ->
                ∃ cA cB,
                  color_at (scanKNN [site 0 0; site 0 10]) st' A = Some cA ∧
                  color_at (scanKNN [site 0 0; site 0 10]) st' B = Some cB ∧
                  cA ∈ colors ∧ cB ∈ colors ∧ cA ≠ cB.
Proof.
  apply (pipeline_colours_the_graph (scanKNN [site 0 0; site 0 10]) cut
           in_order 3 [site 0 0; site 0 10]).
  - exact two_sites_adjacency.
  - apply degenerate_small_degree. by_computation.
  - by_computation.
  - by_computation.
  - exact in_order_fair.
  - exact cut_perm.
  - vm_compute. lia.
Defined.

(** ** Keys and sites *)

(** X15. The key of a two-dimensional site, turned back into a point for
    a query to the tree, has the coordinates of the site; when these are
    numbers the query is at distance 0 from the site, so that an exact tree
    can answer with the site or with one at the same place. *)
Theorem key_query_hits_site p x y :
  vec p = [x; y] -> finite64 x = true -> finite64 y = true ->
  point_xy p = XY x y ∧ xy_vec (point_xy p) = vec p ∧
  Distance (xy_vec (point_xy p)) (vec p) = 0.
Proof.
  intros Hv Hx Hy. unfold point_xy, GetValue, xy_vec. rewrite Hv. simpl.
  split; [done|]. split; [done|].
  unfold Distance. simpl. now rewrite (sub_diag x Hx), (sub_diag y Hy).
Qed.

Lemma key_query_hits_site_witness :
  point_xy (site 3 4) = XY 3 4 ∧ xy_vec (point_xy (site 3 4)) = vec (site 3 4) ∧
  Distance (xy_vec (point_xy (site 3 4))) (vec (site 3 4)) = 0.
Proof.
  apply (key_query_hits_site (site 3 4) 3 4); reflexivity.
Defined.

(** ** Distances to planes *)

(** A square is not [-0]. *)
Lemma sq_not_neg_zero t : Prim2SF (t * t) ≠ S754_zero true.
Proof.
  rewrite mul_spec. destruct (Prim2SF t) as [[]|[]| |s m e]; simpl; try done.
  unfold SF64mul, SFmul, binary_round_aux.
  destruct (shr_fexp _ _ _ _ _) as [mrs' e'].
  destruct (shr_fexp _ _ _ _ _) as [mrs'' e''].
  destruct (shr_m mrs''); try done; [now destruct s|].
  now destruct (Z.leb _ _).
Qed.

Lemma zero_add_sq t : 0 + t * t = t * t.
Proof.
  apply float_eq. rewrite add_spec. pose proof (sq_not_neg_zero t) as H.
  change (Prim2SF 0) with (S754_zero false).
  destruct (Prim2SF (t * t)) as [[]|[]| |s m e]; simpl; done.
Qed.

Lemma sq_add_zero t : t * t + 0 = t * t.
Proof.
  apply float_eq. rewrite add_spec. pose proof (sq_not_neg_zero t) as H.
  change (Prim2SF 0) with (S754_zero false).
  destruct (Prim2SF (t * t)) as [[]|[]| |s m e]; simpl; done.
Qed.

(** The coordinates in which two points agree add nothing to [Distance]. *)
Lemma Distance_skip pv ov idx r :
  r + 0 = r ->
  Forall (fun i => ∃ x, pv !! i = Some x ∧ ov !! i = Some x ∧ finite64 x = true) idx ->
  fold_left (fun ret i => ret + (nth i pv nan - nth i ov nan)
                                * (nth i pv nan - nth i ov nan)) idx r = r.
Proof.
  intros Hr. induction 1 as [|i idx (x & Hp & Ho & Hx) _ IH]; simpl; [done|].
  rewrite !nth_lookup, Hp, Ho. simpl. rewrite (sub_diag x Hx).
  change (0 * 0) with 0. now rewrite Hr.
Qed.

(** X16. [PlaneDistance] agrees with [Distance]: for a point whose
    coordinates are numbers, the value for the plane [x_dim = val] is,
    exactly, the [Distance] from the point to its projection on that plane,
    the point with [val] as coordinate [dim]. Both are squared lengths. *)
Theorem PlaneDistance_to_projection p val dim :
  Forall (fun x => finite64 x = true) (vec p) -> (dim < Dim p)%nat ->
  Distance (vec p) (<[dim := val]> (vec p)) = PlaneDistance p val dim.
Proof.
  unfold Dim, PlaneDistance, GetValue, Distance. intros Hfin Hd.
  assert (Hagree : ∀ i, (i < length (vec p))%nat -> i ≠ dim ->
            ∃ x, vec p !! i = Some x ∧ <[dim := val]> (vec p) !! i = Some x ∧
                 finite64 x = true).
  { intros i Hi Hne. destruct (lookup_lt_is_Some_2 (vec p) i Hi) as [x Hx].
    exists x. split; [done|]. split; [now rewrite list_lookup_insert_ne|].
    rewrite list.Forall_forall in Hfin. apply Hfin.
    eapply list_elem_of_lookup_2. exact Hx. }
  replace (length (vec p)) with (dim + S (length (vec p) - S dim))%nat at 1 by lia.
  rewrite seq_app, fold_left_app. simpl.
  rewrite (Distance_skip _ _ (seq 0 dim) 0); [|reflexivity|].
  2:{ apply list.Forall_forall. intros i Hi.
      apply list_elem_of_In, in_seq in Hi. apply Hagree; lia. }
  rewrite (nth_lookup (<[dim := val]> (vec p))),
    list_lookup_insert_eq by done. simpl.
  rewrite zero_add_sq. apply Distance_skip; [apply sq_add_zero|].
  apply list.Forall_forall. intros i Hi.
  apply list_elem_of_In, in_seq in Hi. apply Hagree; lia.
Qed.

Lemma PlaneDistance_to_projection_witness :
  Distance (vec (site 3 4)) (<[1%nat := 10]> (vec (site 3 4)))
  = PlaneDistance (site 3 4) 10 1.
Proof.
  apply (PlaneDistance_to_projection (site 3 4) 10 1).
  - apply (bool_decide_unpack _). vm_compute. exact I.
  - unfold Dim. simpl. lia.
Defined.

(** ** The image *)

Ltac pixel_cases :=
  repeat case_decide; try done; exfalso;
  repeat match goal with
         | H : context [_ ∈ _ :: _] |- _ => rewrite elem_of_cons in H
         | H : (_, _) = (_, _) |- _ => injection H as -> ->
         end;
  intuition congruence.

Lemma At_Set im x y c x' y' :
  in_bounds x' y' = true ->
  img_At (img_Set im x y c) x' y' =
  if decide ((x', y') = (x, y)) then c else img_At im x' y'.
Proof.
  intros Hb. unfold img_At, img_Set. rewrite Hb.
  destruct (decide ((x', y') = (x, y))) as [[= -> ->]|Hne].
  - rewrite Hb. now rewrite lookup_insert_eq.
  - destruct (in_bounds x y); [|done]. rewrite lookup_insert_ne; [done|congruence].
Qed.

Lemma paint_column im x ys c x' y' :
  in_bounds x' y' = true ->
  img_At (fold_left (fun im y => img_Set im x y c) ys im) x' y' =
  if decide (x' = x ∧ y' ∈ ys) then c else img_At im x' y'.
Proof.
  intros Hb. revert im. induction ys as [|y ys IH]; intros im; cbn [fold_left].
  - rewrite decide_False; [done|]. intros [_ H]. now apply elem_of_nil in H.
  - rewrite IH, At_Set by done.
    pixel_cases.
Qed.

Lemma paint_row im y xs c x' y' :
  in_bounds x' y' = true ->
  img_At (fold_left (fun im x => img_Set im x y c) xs im) x' y' =
  if decide (y' = y ∧ x' ∈ xs) then c else img_At im x' y'.
Proof.
  intros Hb. revert im. induction xs as [|x xs IH]; intros im; cbn [fold_left].
  - rewrite decide_False; [done|]. intros [_ H]. now apply elem_of_nil in H.
  - rewrite IH, At_Set by done.
    pixel_cases.
Qed.

Lemma paint_columns im xs ys c x' y' :
  in_bounds x' y' = true ->
  img_At (fold_left (fun im x => fold_left (fun im y => img_Set im x y c) ys im)
            xs im) x' y' =
  if decide (x' ∈ xs ∧ y' ∈ ys) then c else img_At im x' y'.
Proof.
  intros Hb. revert im. induction xs as [|x xs IH]; intros im; cbn [fold_left].
  - rewrite decide_False; [done|]. intros [H _]. now apply elem_of_nil in H.
  - rewrite IH, paint_column by done.
    pixel_cases.
Qed.

Lemma paint_rows im xs ys c x' y' :
  in_bounds x' y' = true ->
  img_At (fold_left (fun im y => fold_left (fun im x => img_Set im x y c) xs im)
            ys im) x' y' =
  if decide (y' ∈ ys ∧ x' ∈ xs) then c else img_At im x' y'.
Proof.
  intros Hb. revert im. induction ys as [|y ys IH]; intros im; cbn [fold_left].
  - rewrite decide_False; [done|]. intros [H _]. now apply elem_of_nil in H.
  - rewrite IH, paint_row by done.
    pixel_cases.
Qed.

(** The counter of a loop with a stride takes the multiples of the stride
    below the bound. *)
Lemma elem_of_count_by fuel x stop step z :
  (0 < step)%nat -> (stop <= x + fuel)%nat ->
  z ∈ count_by fuel x stop step ↔ (z < stop)%nat ∧ ∃ i, z = (x + i * step)%nat.
Proof.
  intros Hs. revert x. induction fuel as [|fuel IH]; intros x Hf; simpl.
  - split; [intros H; now apply elem_of_nil in H|]. intros [Hz [i ->]]. lia.
  - destruct (Nat.ltb_spec x stop) as [Hlt|Hge].
    + rewrite elem_of_cons, IH by lia. split.
      * intros [->|[Hz [i ->]]]; [split; [done|exists 0%nat; lia]|].
        split; [done|]. exists (S i). lia.
      * intros [Hz [[|i] ->]]; [left; lia|right]. split; [done|]. exists i. lia.
    + split; [intros H; now apply elem_of_nil in H|]. intros [Hz [i ->]]. lia.
Qed.

Lemma elem_of_stride stop step z :
  (0 < step)%nat ->
  z ∈ count_by stop 0 stop step ↔ (z < stop)%nat ∧ (z mod step = 0)%nat.
Proof.
  intros Hs. rewrite elem_of_count_by by lia.
  split; intros [Hz H]; (split; [done|]).
  - destruct H as [i ->]. simpl. now apply Nat.Div0.mod_mul.
  - apply Nat.Div0.mod_divides in H as [c ->]. exists c. lia.
Qed.

Lemma stride_x : (maxX / 58 = 40)%nat.
Proof. reflexivity. Qed.

Lemma stride_y : (maxY / 20 = 40)%nat.
Proof. reflexivity. Qed.

Lemma in_bounds_lt x y : in_bounds x y = true ↔ (x < maxX)%nat ∧ (y < maxY)%nat.
Proof. unfold in_bounds. now rewrite andb_true_iff, !Nat.ltb_lt. Qed.

(** The grid: gray where a counter is a multiple of 40, untouched elsewhere. *)
Lemma grid_At im x y :
  (x < maxX)%nat -> (y < maxY)%nat ->
  img_At (grid im) x y =
  if decide ((x mod 40 = 0)%nat ∨ (y mod 40 = 0)%nat) then gray else img_At im x y.
Proof.
  intros Hx Hy. assert (Hb : in_bounds x y = true) by now apply in_bounds_lt.
  unfold grid. rewrite paint_rows, paint_columns by done.
  rewrite stride_x, stride_y.
  assert (Ex : ∀ n, x ∈ seq 0 n ↔ (x < n)%nat)
    by (intros n; rewrite list_elem_of_In, in_seq; lia).
  assert (Ey : ∀ n, y ∈ seq 0 n ↔ (y < n)%nat)
    by (intros n; rewrite list_elem_of_In, in_seq; lia).
  assert (A1 : y ∈ count_by maxY 0 maxY 40 ∧ x ∈ seq 0 maxX ↔ (y mod 40 = 0)%nat)
    by (rewrite elem_of_stride, Ex by lia; tauto).
  assert (A2 : x ∈ count_by maxX 0 maxX 40 ∧ y ∈ seq 0 maxY ↔ (x mod 40 = 0)%nat)
    by (rewrite elem_of_stride, Ey by lia; tauto).
  rewrite (decide_ext _ _ _ _ A1), (decide_ext _ _ _ _ A2).
  generalize (img_At im x y). intros v. clear.
  repeat case_decide; try (exfalso; tauto); reflexivity.
Qed.

Lemma filled_filled KNN ps x y v :
  filled KNN ps x y (filled KNN ps x y v) = filled KNN ps x y v.
Proof. unfold filled. repeat case_decide; done. Qed.

Section Fill.

Variable KNN : list float -> nat -> list nat.
Variable ps : list point.

Hypothesis Hnn : ∀ x y, (x < maxX)%nat -> (y < maxY)%nat ->
                        is_Some (color_of KNN ps (pixel x y)).

Lemma fill_pixel_At im x y :
  (x < maxX)%nat -> (y < maxY)%nat ->
  ∃ im', fill_pixel KNN ps im x y = Some im' ∧
    ∀ x' y', in_bounds x' y' = true ->
      img_At im' x' y' =
      if decide ((x', y') = (x, y)) then filled KNN ps x y (img_At im x y)
      else img_At im x' y'.
Proof.
  intros Hx Hy. unfold fill_pixel, filled.
  destruct (Hnn x y Hx Hy) as [c Hc]. rewrite Hc. simpl.
  eexists. split; [reflexivity|]. intros x' y' Hb.
  destruct (decide (cA (img_At im x y) = 0%Z)) as [E|E].
  - rewrite At_Set by done. now case_decide.
  - case_decide as E'; [|done]. now injection E' as -> ->.
Qed.

Lemma fill_column im x ys :
  (x < maxX)%nat -> Forall (fun y => (y < maxY)%nat) ys ->
  ∃ im', for_each (fun im y => fill_pixel KNN ps im x y) ys im = Some im' ∧
    ∀ x' y', in_bounds x' y' = true ->
      img_At im' x' y' =
      if decide (x' = x ∧ y' ∈ ys) then filled KNN ps x' y' (img_At im x' y')
      else img_At im x' y'.
Proof.
  intros Hx Hys. revert im. induction Hys as [|y ys Hy _ IH]; intros im; simpl.
  - exists im. split; [done|]. intros x' y' _.
    rewrite decide_False; [done|]. intros [_ H]. now apply elem_of_nil in H.
  - destruct (fill_pixel_At im x y Hx Hy) as (im1 & -> & H1). simpl.
    destruct (IH im1) as (im' & -> & H'). exists im'. split; [done|].
    intros x' y' Hb. rewrite H', !H1 by done.
    destruct (decide ((x', y') = (x, y))) as [[= -> ->]|Hne].
    + rewrite (decide_True (P := x = x ∧ y ∈ y :: ys)) by (split; [done|left]).
      case_decide; [apply filled_filled|done].
    + destruct (decide (x' = x ∧ y' ∈ ys)) as [[-> Hin]|Hn].
      * rewrite decide_True; [done|]. split; [done|now right].
      * rewrite decide_False; [done|].
        intros [-> [->|Hin]%elem_of_cons]; [done|]. now apply Hn.
Qed.

Lemma fill_columns im xs :
  Forall (fun x => (x < maxX)%nat) xs ->
  ∃ im', for_each (fun im x => for_each (fun im y => fill_pixel KNN ps im x y)
                                 (seq 0 maxY) im) xs im = Some im' ∧
    ∀ x' y', in_bounds x' y' = true ->
      img_At im' x' y' =
      if decide (x' ∈ xs) then filled KNN ps x' y' (img_At im x' y')
      else img_At im x' y'.
Proof.
  intros Hxs. revert im. induction Hxs as [|x xs Hx _ IH]; intros im;
    cbn [for_each].
  - exists im. split; [done|]. intros x' y' _.
    rewrite decide_False; [done|]. intros H. now apply elem_of_nil in H.
  - destruct (fill_column im x (seq 0 maxY) Hx) as (im1 & -> & H1).
    { apply list.Forall_forall. intros y Hy.
      apply list_elem_of_In, in_seq in Hy. lia. }
    cbn [mbind option_bind].
    destruct (IH im1) as (im' & -> & H'). exists im'. split; [reflexivity|].
    intros x' y' Hb. rewrite H', !H1 by done.
    assert (Hy' : y' ∈ seq 0 maxY).
    { apply list_elem_of_In, in_seq. apply in_bounds_lt in Hb. lia. }
    destruct (decide (x' = x)) as [->|Hne].
    + rewrite (decide_True (P := x = x ∧ y' ∈ seq 0 maxY)) by done.
      rewrite (decide_True (P := x ∈ x :: xs)) by left.
      case_decide; [apply filled_filled|done].
    + rewrite (decide_False (P := x' = x ∧ y' ∈ seq 0 maxY)) by tauto.
      destruct (decide (x' ∈ xs)) as [Hin|Hn].
      * rewrite decide_True; [done|now right].
      * rewrite decide_False; [done|].
        intros [->|Hin]%elem_of_cons; [done|]. now apply Hn.
Qed.

(** X17. The image that [main] encodes, whatever [drawNear] drew before:
    when the tree answers at every pixel, the two last steps of [main] end,
    and every pixel of the image is gray if its column or its row is a
    multiple of 40, else the colour of the site nearest to it if nothing
    was drawn there (alpha 0), else what was drawn there. *)
Theorem render_pixels im0 :
  ∃ im, render KNN ps im0 = Some im ∧
    ∀ x y, (x < maxX)%nat -> (y < maxY)%nat ->
      img_At im x y =
      if decide ((x mod 40 = 0)%nat ∨ (y mod 40 = 0)%nat) then gray
      else if decide (cA (img_At im0 x y) = 0%Z)
           then default transparent (color_of KNN ps (pixel x y))
           else img_At im0 x y.
Proof.
  unfold render, fill.
  destruct (fill_columns im0 (seq 0 maxX)) as (im1 & -> & H1).
  { apply list.Forall_forall. intros x Hx.
    apply list_elem_of_In, in_seq in Hx. lia. }
  cbn [mbind option_bind]. eexists. split; [reflexivity|]. intros x y Hx Hy.
  rewrite grid_At by done. case_decide; [reflexivity|].
  rewrite H1 by now apply in_bounds_lt.
  rewrite decide_True; [reflexivity|].
  apply list_elem_of_In, in_seq. lia.
Qed.

End Fill.

Lemma render_pixels_witness :
  ∃ im, render (scanKNN [site 3 4]) [Point [3; 4] (mkRGBA 155 17 30 255)] ∅
        = Some im ∧
    ∀ x y, (x < maxX)%nat -> (y < maxY)%nat ->
      img_At im x y =
      if decide ((x mod 40 = 0)%nat ∨ (y mod 40 = 0)%nat) then gray
      else if decide (cA (img_At (∅ : image) x y) = 0%Z)
           then default transparent
                  (color_of (scanKNN [site 3 4])
                     [Point [3; 4] (mkRGBA 155 17 30 255)] (pixel x y))
           else img_At (∅ : image) x y.
Proof.
  apply (render_pixels (scanKNN [site 3 4])
           [Point [3; 4] (mkRGBA 155 17 30 255)]).
  intros x y _ _. eexists. reflexivity.
Defined.
